(** * LSTM-Cracker: the weighted trie, its binary codec and the guess search

    A shallow embedding of [pwd_guess.py].  Python strings are lists of
    characters ([ascii], the Latin-1 range), Python integers are [Z], bytes
    are [Byte.byte].  The numbers of a prediction are exact rationals [Q]
    (floating-point rounding is left out); the probabilities of the search
    are such numbers or one of the values that a division by zero leaves
    behind, an infinity or not-a-number ([float]).  A raised exception is
    [None] or [Raise]; a generator is the list of the items it yields. *)

From Stdlib Require Import String Ascii ZArith QArith Bool Lia Permutation Sorted List.
From coqutil Require Import Byte Word.LittleEndianList.
Import ListNotations.

Local Open Scope Z_scope.

#[local] Arguments Z.mul : simpl never.
#[local] Arguments Z.add : simpl never.
#[local] Arguments Z.sub : simpl never.
#[local] Arguments Z.pow : simpl never.
#[local] Arguments Z.of_nat : simpl never.
#[local] Arguments Z.to_nat : simpl never.
#[local] Arguments Z.modulo : simpl never.

(** ** Strings and Python helpers *)

Definition str := list ascii.

Definition L (s : string) : str := list_ascii_of_string s.

(** [PASSWORD_END = '\n'] *)
Definition PASSWORD_END : ascii := ascii_of_nat 10.

Definition TAB : ascii := ascii_of_nat 9.

Definition str_eqb (a b : str) : bool :=
  if list_eq_dec ascii_dec a b then true else false.

Definition is_empty {A} (l : list A) : bool :=
  match l with [] => true | _ => false end.

Definition len {A} (l : list A) : Z := Z.of_nat (length l).

(** [c in astring] for a character [c] *)
Definition char_in (c : ascii) (s : str) : bool := existsb (Ascii.eqb c) s.

(** [astring.strip(c)] for a one-character argument *)
Fixpoint lstrip (c : ascii) (s : str) : str :=
  match s with
  | [] => []
  | a :: s' => if Ascii.eqb a c then lstrip c s' else s
  end.

Definition rstrip (c : ascii) (s : str) : str := rev (lstrip c (rev s)).

Definition strip (c : ascii) (s : str) : str := rstrip c (lstrip c s).

(** [aword[:n]] and [aword[n:]]; a negative [n] counts from the end. *)
Definition slice_to (n : Z) (s : str) : str :=
  if 0 <=? n then firstn (Z.to_nat n) s
  else firstn (length s - Z.to_nat (- n)) s.

Definition slice_from (n : Z) (s : str) : str :=
  if 0 <=? n then skipn (Z.to_nat n) s
  else skipn (length s - Z.to_nat (- n)) s.

(** [astring * n]: repetition, empty when [n <= 0]. *)
Definition str_repeat (c : ascii) (n : Z) : str := repeat c (Z.to_nat n).

(** [sorted(...)] on characters, by code point. *)
Definition ascii_leb (a b : ascii) : bool := (nat_of_ascii a <=? nat_of_ascii b)%nat.

Fixpoint insert_char (c : ascii) (l : list ascii) : list ascii :=
  match l with
  | [] => [c]
  | a :: l' => if ascii_leb c a then c :: l else a :: insert_char c l'
  end.

Definition sorted_chars (l : list ascii) : list ascii :=
  fold_right insert_char [] l.

(** [set(chars)]: the distinct characters. *)
Definition set_chars (l : list ascii) : list ascii := nodup ascii_dec l.

(** [alist.index(x)] *)
Fixpoint index_of {A} (eqb : A -> A -> bool) (x : A) (l : list A) : option nat :=
  match l with
  | [] => None
  | a :: l' => if eqb a x then Some O else option_map S (index_of eqb x l')
  end.

(** ** NodeTrie *)

(** [class NodeTrie]: [self.weight] and [self.nodes], a
    [collections.defaultdict(NodeTrie)] kept in insertion order. *)
#[warnings="-register-all"]
Inductive NodeTrie : Type :=
  mkNodeTrie (weight : Z) (nodes : list (ascii * NodeTrie)).

Definition weight (t : NodeTrie) : Z :=
  match t with mkNodeTrie w _ => w end.

Definition nodes (t : NodeTrie) : list (ascii * NodeTrie) :=
  match t with mkNodeTrie _ ns => ns end.

(** [NodeTrie.__init__] *)
Definition NodeTrie_init : NodeTrie := mkNodeTrie 0 [].

(** [root.nodes[next_char]] followed by mutation of the node reached: the
    defaultdict creates a fresh [NodeTrie()] at the end of the dictionary when
    the key is missing. *)
Fixpoint update_child (c : ascii) (f : NodeTrie -> NodeTrie)
    (ns : list (ascii * NodeTrie)) : list (ascii * NodeTrie) :=
  match ns with
  | [] => [(c, f NodeTrie_init)]
  | (k, t) :: ns' =>
      if Ascii.eqb k c then (k, f t) :: ns'
      else (k, t) :: update_child c f ns'
  end.

Definition add_weight (w : Z) (t : NodeTrie) : NodeTrie :=
  mkNodeTrie (weight t + w) (nodes t).

(** The [while len(inc_str) != 0] loop of [increment_optimized] together with
    the [root.weight += weight] that follows it; [root] is the node the loop
    has reached. *)
Fixpoint walk (inc_str : str) (w : Z) (root : NodeTrie) : NodeTrie :=
  match inc_str with
  | [] => add_weight w root
  | next_char :: inc_str' =>
      mkNodeTrie (weight root + w)
                 (update_child next_char (walk inc_str' w) (nodes root))
  end.

(** [NodeTrie.increment_optimized]: one [root.weight += weight] before the
    loop, then the loop. *)
Definition increment_optimized (anode : NodeTrie) (aword : str) (w : Z)
  : NodeTrie :=
  walk aword w (add_weight w anode).

(** [NodeTrie.increment] *)
Definition increment (self : NodeTrie) (aword : str) (w : Z) : NodeTrie :=
  increment_optimized self aword w.

(** The value of a trie entry: a weight (regular trainer) or the list of
    the children's weights (fuzzy trainer). *)
Inductive value : Type :=
| Weight (w : Z)
| Dist (l : list (str * Z)).

Definition item : Type := str * value.

(** [NodeTrie.random_iterate] *)
Fixpoint random_iterate (self : NodeTrie) (cur : str) : list (str * Z) :=
  match self with
  | mkNodeTrie wt ns =>
      (if is_empty cur then [] else [(cur, wt)]) ++
      (fix others (l : list (ascii * NodeTrie)) : list (str * Z) :=
         match l with
         | [] => []
         | (key, sub) :: l' => random_iterate sub (cur ++ [key]) ++ others l'
         end) ns
  end.

(** [self.nodes[k]] for a key of the dictionary *)
Fixpoint find_child (c : ascii) (ns : list (ascii * NodeTrie)) : option NodeTrie :=
  match ns with
  | [] => None
  | (k, t) :: ns' => if Ascii.eqb k c then Some t else find_child c ns'
  end.

(** [[(k, self.nodes[k].weight) for k in sorted(self.nodes.keys())]] *)
Definition node_children (ns : list (ascii * NodeTrie)) : list (str * Z) :=
  map (fun k => ([k], match find_child k ns with
                    | Some sub => weight sub
                    | None => 0
                    end))
      (sorted_chars (map fst ns)).

(** [NodeTrie.sampled_training] *)
Fixpoint sampled_training (self : NodeTrie) (val : str)
  : list (str * list (str * Z)) :=
  match self with
  | mkNodeTrie _ ns =>
      (if is_empty (node_children ns) then [] else [(val, node_children ns)]) ++
      (fix others (l : list (ascii * NodeTrie)) :=
         match l with
         | [] => []
         | (key, sub) :: l' => sampled_training sub (val ++ [key]) ++ others l'
         end) ns
  end.

(** [trie_serializer_type] *)
Inductive serializer_type : Type := reg | fuzzy.

(** [NodeTrie.iterate] *)
Definition iterate (self : NodeTrie) (serial_type : serializer_type) : list item :=
  match serial_type with
  | fuzzy => map (fun e => (fst e, Dist (snd e))) (sampled_training self [])
  | reg => map (fun e => (fst e, Weight (snd e))) (random_iterate self [])
  end.

(** The increments of a whole corpus, in order. *)
Definition increment_all (t : NodeTrie) (incs : list (str * Z)) : NodeTrie :=
  fold_left (fun acc kw => increment acc (fst kw) (snd kw)) incs t.

(** The node reached from [t] along [p], when it exists. *)
Fixpoint node_at (t : NodeTrie) (p : str) : option NodeTrie :=
  match p with
  | [] => Some t
  | c :: p' =>
      match find_child c (nodes t) with
      | Some sub => node_at sub p'
      | None => None
      end
  end.

Fixpoint is_prefix (p k : str) : bool :=
  match p, k with
  | [], _ => true
  | a :: p', b :: k' => Ascii.eqb a b && is_prefix p' k'
  | _ :: _, [] => false
  end.

(** The total weight of the increments whose key starts with [p]. *)
Definition prefix_weight (incs : list (str * Z)) (p : str) : Z :=
  fold_right (fun kw acc => if is_prefix p (fst kw) then snd kw + acc else acc)
             0 incs.

Definition weight_at (t : NodeTrie) (p : str) : Z :=
  match node_at t p with Some n => weight n | None => 0 end.

Definition has_node (t : NodeTrie) (p : str) : bool :=
  match node_at t p with Some _ => true | None => false end.

(** No character occurs twice among the keys of a dictionary, at any depth. *)
Fixpoint wf (t : NodeTrie) : Prop :=
  match t with
  | mkNodeTrie _ ns =>
      NoDup (map fst ns) /\
      (fix all (l : list (ascii * NodeTrie)) : Prop :=
         match l with
         | [] => True
         | (_, sub) :: l' => wf sub /\ all l'
         end) ns
  end.

(** ** Text encodings *)

(** [astring.encode(encoding)] and [bytes.decode(encoding)]; [None] is the
    [UnicodeError]. *)
Class Encoding : Type := {
  encode : str -> option (list byte);
  decode : list byte -> option str
}.

(** ['latin-1']: one byte per character. *)
Definition latin1 : Encoding := {|
  encode := fun s => Some (map byte_of_ascii s);
  decode := fun bs => Some (map ascii_of_byte bs)
|}.

(** ['utf8'] on the characters of the model (code points below 256): one
    byte below 128, two bytes from 128 on.  A byte sequence that is not
    well-formed, or that decodes to a code point the model does not have,
    is rejected. *)
Definition utf8_encode_char (c : ascii) : list byte :=
  let n := Z.of_nat (nat_of_ascii c) in
  if n <? 128 then [byte.of_Z n]
  else [byte.of_Z (Z.lor 192 (Z.shiftr n 6));
        byte.of_Z (Z.lor 128 (Z.land n 63))].

Fixpoint utf8_decode_fuel (fuel : nat) (bs : list byte) : option str :=
  match fuel with
  | O => match bs with [] => Some [] | _ => None end
  | S fuel' =>
      match bs with
      | [] => Some []
      | b :: bs' =>
          let n := byte.unsigned b in
          if n <? 128 then
            option_map (cons (ascii_of_nat (Z.to_nat n)))
                       (utf8_decode_fuel fuel' bs')
          else if (194 <=? n) && (n <=? 195) then
            match bs' with
            | b2 :: bs'' =>
                let m := byte.unsigned b2 in
                if (128 <=? m) && (m <? 192) then
                  option_map
                    (cons (ascii_of_nat
                             (Z.to_nat (Z.lor (Z.shiftl (Z.land n 31) 6)
                                              (Z.land m 63)))))
                    (utf8_decode_fuel fuel' bs'')
                else None
            | [] => None
            end
          else None
      end
  end.

Definition utf8 : Encoding := {|
  encode := fun s => Some (flat_map utf8_encode_char s);
  decode := fun bs => utf8_decode_fuel (length bs) bs
|}.

(** ** Configuration *)

(** [class ModelDefaults]: the attributes the modelled code reads, with the
    class-level defaults in [ModelDefaults_init]. *)
Record ModelDefaults : Type := mkModelDefaults {
  char_bag : str;
  max_len : Z;
  min_len : Z;
  lower_probability_threshold : Q;
  relevel_not_matching_passwords : bool;
  parallel_guessing : bool;
  fork_length : Z;
  simulated_frequency_optimization : bool;
  trie_implementation : option string;
  trie_intermediate_storage : string;
  trie_serializer_encoding : Encoding;
  trie_serializer_type : serializer_type;
  toc_chunk_size : Z;
  model_truncate_gradient : Z
}.

Definition ascii_lowercase : str := L "abcdefghijklmnopqrstuvwxyz".
Definition ascii_uppercase : str := L "ABCDEFGHIJKLMNOPQRSTUVWXYZ".
Definition digits : str := L "0123456789".

Definition ModelDefaults_init : ModelDefaults := {|
  char_bag := ascii_lowercase ++ ascii_uppercase ++ digits
              ++ L "~!@#$%^&*(),.<>/?'" ++ [ascii_of_nat 34]
              ++ L "{}[]\|-_=+;: `" ++ [PASSWORD_END];
  max_len := 40;
  min_len := 4;
  lower_probability_threshold := 1 # 100000;
  relevel_not_matching_passwords := true;
  parallel_guessing := false;
  fork_length := 2;
  simulated_frequency_optimization := false;
  trie_implementation := None;
  trie_intermediate_storage := ":memory:";
  trie_serializer_encoding := utf8;
  trie_serializer_type := reg;
  toc_chunk_size := 1000;
  model_truncate_gradient := -1
|}.

(** [ModelDefaults.validate]: [true] when every [assert] passes. *)
Definition validate (self : ModelDefaults) : bool :=
  (match trie_serializer_type self with
   | fuzzy =>
       simulated_frequency_optimization self
       && (match trie_implementation self with Some _ => true | None => false end)
   | reg => true
   end)
  && (fork_length self <? min_len self)
  && (if model_truncate_gradient self =? -1 then true
      else model_truncate_gradient self <? max_len self).

(** [ModelDefaults.fromFile]: the parsed JSON dictionary is the argument;
    [None] is the [AssertionError] of [validate]. *)
Definition fromFile (afile : option ModelDefaults) : option ModelDefaults :=
  match afile with
  | None => Some ModelDefaults_init
  | Some answer => if validate answer then Some answer else None
  end.

(** ** [struct] formats, little-endian *)

Definition in_range (bits : Z) (n : Z) : bool := (0 <=? n) && (n <? 2 ^ bits).

(** [struct.pack('<Q', n)]; [None] is [struct.error]. *)
Definition pack_Q (n : Z) : option (list byte) :=
  if in_range 64 n then Some (le_split 8 n) else None.

(** [struct.pack('<QQ', a, b)] *)
Definition pack_QQ (a b : Z) : option (list byte) :=
  match pack_Q a, pack_Q b with
  | Some x, Some y => Some (x ++ y)
  | _, _ => None
  end.

(** [struct.unpack('<QQ', data)]: the buffer must have exactly 16 bytes. *)
Definition unpack_QQ (data : list byte) : option (Z * Z) :=
  if Nat.eqb (length data) 16
  then Some (le_combine (firstn 8 data), le_combine (skipn 8 data))
  else None.

(** [struct.unpack_from('<Q', data)[0]]: at least 8 bytes. *)
Definition unpack_from_Q (data : list byte) : option Z :=
  if Nat.leb 8 (length data) then Some (le_combine (firstn 8 data)) else None.

(** [struct.pack('<B', n)] and [struct.unpack('<B', data)] *)
Definition pack_B (n : Z) : option (list byte) :=
  if in_range 8 n then Some [byte.of_Z n] else None.

Definition unpack_B (data : list byte) : option Z :=
  match data with
  | [b] => Some (byte.unsigned b)
  | _ => None
  end.

(** [struct.pack('<H', n)] and [struct.unpack_from('<H', data)] *)
Definition pack_H (n : Z) : option (list byte) :=
  if in_range 16 n then Some (le_split 2 n) else None.

Definition unpack_from_H (data : list byte) : option Z :=
  if Nat.leb 2 (length data) then Some (le_combine (firstn 2 data)) else None.

(** [struct.pack('<1sQ', s, n)]: the first byte of [s], or a null byte when
    [s] is empty, then [n]. *)
Definition pack_1sQ (s : list byte) (n : Z) : option (list byte) :=
  match pack_Q n with
  | Some x => Some (hd (byte.of_Z 0) s :: x)
  | None => None
  end.

Definition unpack_from_1sQ (data : list byte) : option (list byte * Z) :=
  if Nat.leb 9 (length data)
  then Some (firstn 1 data, le_combine (firstn 8 (skipn 1 data)))
  else None.

(** ** Reading a binary file *)

(** A computation on a file opened for reading: the content and the
    position before, the result and the position after; [None] is a raised
    exception. *)
Definition Reader (A : Type) : Type := list byte -> nat -> option (A * nat).

Definition ret {A} (a : A) : Reader A := fun _ pos => Some (a, pos).

Definition bind {A B} (m : Reader A) (k : A -> Reader B) : Reader B :=
  fun content pos =>
    match m content pos with
    | Some (a, pos') => k a content pos'
    | None => None
    end.

Definition raise {A} : Reader A := fun _ _ => None.

Definition lift {A} (o : option A) : Reader A :=
  match o with Some a => ret a | None => raise end.

Declare Scope reader_scope.
Delimit Scope reader_scope with reader.
Notation "x <- m ;; k" := (bind m (fun x => k))
  (at level 61, m at next level, right associativity) : reader_scope.
Notation "' p <- m ;; k" := (bind m (fun x => match x with p => k end))
  (at level 61, p pattern, m at next level, right associativity) : reader_scope.

(** [afile.read(n)]: at most [n] bytes, fewer at the end of the file. *)
Definition read (n : nat) : Reader (list byte) :=
  fun content pos =>
    let data := firstn n (skipn pos content) in
    Some (data, (pos + length data)%nat).


Definition seek (p : Z) : Reader unit :=
  fun _ _ => if p <? 0 then None else Some (tt, Z.to_nat p).

Local Open Scope reader_scope.

(** Dictionaries with integer keys, in insertion order: [d[k] = v], [d[k]]
    and [sorted(d.keys())]. *)
Fixpoint dict_set (k v : Z) (d : list (Z * Z)) : list (Z * Z) :=
  match d with
  | [] => [(k, v)]
  | (k', v') :: d' =>
      if k' =? k then (k, v) :: d' else (k', v') :: dict_set k v d'
  end.

Fixpoint dict_get (k : Z) (d : list (Z * Z)) : option Z :=
  match d with
  | [] => None
  | (k', v') :: d' => if k' =? k then Some v' else dict_get k d'
  end.

Fixpoint insert_Z (k : Z) (l : list Z) : list Z :=
  match l with
  | [] => [k]
  | a :: l' => if k <=? a then k :: l else a :: insert_Z k l'
  end.

Definition sorted_Z (l : list Z) : list Z := fold_right insert_Z [] l.

(** [Some] of all the results, or [None] when one of them is [None]. *)
Fixpoint all_some {A} (l : list (option A)) : option (list A) :=
  match l with
  | [] => Some []
  | None :: _ => None
  | Some a :: l' => option_map (cons a) (all_some l')
  end.

(** ** BinaryTrieSerializer, NodeTrieSerializer, TrieFuzzySerializer *)

Section BinaryTrieSerializer.

(** [self.encoding], [self.serializer_type] (which subclass this is) and
    [self.toc_chunk_size]. *)
Context {encoding : Encoding}.
Variable serial_type : serializer_type.
Variable chunk_size : Z.

(** [_fmt_size = struct.calcsize('<QQ')] *)
Definition _fmt_size : nat := 16.

(** [write_string] *)
Definition write_string (astring : str) : option (list byte) :=
  match encode astring with
  | Some string_bytes =>
      match pack_B (len string_bytes) with
      | Some l => Some (l ++ string_bytes)
      | None => None
      end
  | None => None
  end.

(** [TrieFuzzySerializer.write_value], the loop over [output_list] *)
Fixpoint write_pairs (output_list : list (str * Z)) : option (list byte) :=
  match output_list with
  | [] => Some []
  | (char, w) :: rest =>
      match encode char with
      | Some cb =>
          match pack_1sQ cb w, write_pairs rest with
          | Some x, Some y => Some (x ++ y)
          | _, _ => None
          end
      | None => None
      end
  end.

(** [write_value] of [NodeTrieSerializer] ([reg]) and of
    [TrieFuzzySerializer] ([fuzzy]); a value of the other shape makes
    [struct.pack] or [len] raise. *)
Definition write_value (v : value) : option (list byte) :=
  match serial_type, v with
  | reg, Weight w => pack_Q w
  | fuzzy, Dist output_list =>
      match pack_H (len output_list), write_pairs output_list with
      | Some x, Some y => Some (x ++ y)
      | _, _ => None
      end
  | _, _ => None
  end.

(** [write_record] *)
Definition write_record (pwd : str) (val : value) : option (list byte) :=
  match write_string pwd, write_value val with
  | Some x, Some y => Some (x ++ y)
  | _, _ => None
  end.

(** [read_string]: the inner [None] is the [None] the source returns at the
    end of the file. *)
Definition read_string : Reader (option str) :=
  byte_string <- read 1 ;;
  if is_empty byte_string then ret None
  else
    strlen <- lift (unpack_B byte_string) ;;
    data <- read (Z.to_nat strlen) ;;
    s <- lift (decode data) ;;
    ret (Some s).

(** [TrieFuzzySerializer.read_value], the loop [for _ in range(num_rec)] *)
Fixpoint read_pairs (num_rec : nat) : Reader (list (str * Z)) :=
  match num_rec with
  | O => ret []
  | S n =>
      data <- read 9 ;;
      ' (out_char, out_weight) <- lift (unpack_from_1sQ data) ;;
      char <- lift (decode out_char) ;;
      rest <- read_pairs n ;;
      ret ((char, out_weight) :: rest)
  end.

(** [read_value] of the two subclasses *)
Definition read_value : Reader value :=
  match serial_type with
  | reg =>
      data <- read 8 ;;
      w <- lift (unpack_from_Q data) ;;
      ret (Weight w)
  | fuzzy =>
      data <- read 2 ;;
      num_rec <- lift (unpack_from_H data) ;;
      record <- read_pairs (Z.to_nat num_rec) ;;
      ret (Dist record)
  end.

(** [read_record] *)
Definition read_record : Reader (option item) :=
  astr <- read_string ;;
  match astr with
  | None => ret None
  | Some s =>
      v <- read_value ;;
      ret (Some (s, v))
  end.

(** The state of the loop of [do_serialize]: [records],
    [table_of_contents] and the bytes written to [afile] so far. *)
Record wstate : Type := mkwstate {
  records : Z;
  table_of_contents : list (Z * Z);
  afile : list byte
}.

(** One iteration of [for item in trie.iterate(...)]; [None] is an
    exception of [write_record] or the [ZeroDivisionError] of
    [records % self.toc_chunk_size]. *)
Definition serialize_item (st : wstate) (it : item) : option wstate :=
  match write_record (fst it) (snd it) with
  | Some bs =>
      let afile' := afile st ++ bs in
      let records' := records st + 1 in
      if chunk_size =? 0 then None
      else
        Some (mkwstate records'
                (if records' mod chunk_size =? 0
                 then dict_set records' (len afile') (table_of_contents st)
                 else table_of_contents st)
                afile')
  | None => None
  end.

Fixpoint serialize_items (st : wstate) (items : list item) : option wstate :=
  match items with
  | [] => Some st
  | it :: items' =>
      match serialize_item st it with
      | Some st' => serialize_items st' items'
      | None => None
      end
  end.

(** [for key in sorted(table_of_contents.keys()): afile.write(...)] *)
Fixpoint write_toc (toc : list (Z * Z)) (ks : list Z) : option (list byte) :=
  match ks with
  | [] => Some []
  | key :: ks' =>
      match dict_get key toc with
      | Some pos =>
          match pack_QQ key pos, write_toc toc ks' with
          | Some x, Some y => Some (x ++ y)
          | _, _ => None
          end
      | None => None
      end
  end.

(** [do_serialize], on the items of [trie.iterate(self.serializer_type)]:
    the content of the file once the header has been patched. *)
Definition do_serialize (items : list item) : option (list byte) :=
  match pack_QQ 0 0 with
  | Some header0 =>
      match serialize_items (mkwstate 0 [] header0) items with
      | Some st =>
          let toc_start := len (afile st) in
          match write_toc (table_of_contents st)
                          (sorted_Z (map fst (table_of_contents st))) with
          | Some toc_bytes =>
              if toc_start >? 0 then
                match pack_QQ (records st) toc_start with
                | Some header =>
                    Some (header
                          ++ skipn (length header) (afile st ++ toc_bytes))
                | None => None
                end
              else None
          | None => None
          end
      | None => None
      end
  | None => None
  end.

(** [for _ in range(num_records)] of [deserialize], with its [break] *)
Fixpoint read_records (n : nat) : Reader (list item) :=
  match n with
  | O => ret []
  | S n' =>
      answer <- read_record ;;
      match answer with
      | None => ret []
      | Some r =>
          rest <- read_records n' ;;
          ret (r :: rest)
      end
  end.

(** [deserialize]: the items yielded, [None] when an exception ends the
    iteration. *)
Definition deserialize (content : list byte) : option (list item) :=
  option_map fst
    ((data <- read _fmt_size ;;
      ' (num_records, toc_start) <- lift (unpack_QQ data) ;;
      read_records (Z.to_nat num_records)) content O).

(** The [while True] loop of [read_toc].  Every iteration that does not
    leave the loop reads 16 bytes, so [fuel] above the number of bytes left
    is never used up. *)
Fixpoint read_toc_loop (fuel : nat) (toc : list (Z * Z)) : Reader (list (Z * Z)) :=
  match fuel with
  | O => raise
  | S fuel' =>
      chunk <- read _fmt_size ;;
      if is_empty chunk then ret toc
      else
        ' (key, toc_pos) <- lift (unpack_QQ chunk) ;;
        read_toc_loop fuel' (dict_set key toc_pos toc)
  end.

(** [read_toc] *)
Definition read_toc : Reader (list (Z * Z) * Z) :=
  fun content =>
    (data <- read _fmt_size ;;
     ' (num_records, toc_start) <- lift (unpack_QQ data) ;;
     _ <- seek toc_start ;;
     toc <- read_toc_loop (S (length content)) [] ;;
     ret (toc, toc_start)) content.






End BinaryTrieSerializer.

Local Close Scope reader_scope.

(** [TrieSerializer.serialize] of a trie with a binary serializer. *)
Definition serialize_trie {encoding : Encoding} (serial_type : serializer_type)
    (chunk_size : Z) (trie : NodeTrie) : option (list byte) :=
  do_serialize serial_type chunk_size (iterate trie serial_type).

(** ** What a reader finds in written bytes *)

(** The laws of a text encoding: decoding gives back what was encoded, and a
    prefix of a string that can be encoded can be encoded, in no more
    bytes. *)
Class EncodingLaws (E : Encoding) : Prop := {
  decode_encode : forall s bs, encode s = Some bs -> decode bs = Some s;
  encode_prefix : forall p k bk,
    is_prefix p k = true -> encode k = Some bk ->
    exists bp, encode p = Some bp /\ (length bp <= length bk)%nat
}.

(** [frames m bs r]: wherever the bytes [bs] lie in a file, the reader [m]
    started at their first byte ends at the byte after their last with
    result [r], or raises when [r] is [None]. *)
Definition frames {A} (m : Reader A) (bs : list byte) (r : option A) : Prop :=
  forall pre post,
    m (pre ++ bs ++ post) (length pre)
    = option_map (fun a => (a, (length pre + length bs)%nat)) r.

Section ReadBack.

Context {encoding : Encoding}.
Variable serial_type : serializer_type.

(** What [read_string], [read_value] and [read_record] return on the bytes
    that [write_string], [write_value] and [write_record] wrote for the
    argument; [None] when the reader raises. *)
Definition read_back_string (s : str) : option str :=
  match encode s with
  | Some sb => decode sb
  | None => None
  end.

Fixpoint read_back_pairs (l : list (str * Z)) : option (list (str * Z)) :=
  match l with
  | [] => Some []
  | (c, w) :: l' =>
      match encode c with
      | Some cb =>
          match decode [hd (byte.of_Z 0) cb], read_back_pairs l' with
          | Some ch, Some r => Some ((ch, w) :: r)
          | _, _ => None
          end
      | None => None
      end
  end.

Definition read_back_value (v : value) : option value :=
  match serial_type, v with
  | reg, Weight w => Some (Weight w)
  | fuzzy, Dist l => option_map Dist (read_back_pairs l)
  | _, _ => None
  end.

Definition read_back (it : item) : option item :=
  match read_back_string (fst it), read_back_value (snd it) with
  | Some s, Some v => Some (s, v)
  | _, _ => None
  end.

(** A record: an item with the bytes [write_record] makes of it. *)
Definition written (r : item * list byte) : Prop :=
  write_record serial_type (fst (fst r)) (snd (fst r)) = Some (snd r).

(** What a reader finds in the records [recs], one after the other. *)
Definition read_back_all (recs : list (item * list byte)) : option (list item) :=
  all_some (map (fun r => read_back (fst r)) recs).

(** The bytes [rest] are the beginning of a record that was cut short. *)
Definition truncated (rest : list byte) : Prop :=
  exists r k, written r /\ (0 < k < length (snd r))%nat
              /\ rest = firstn k (snd r).

Definition data_of (recs : list (item * list byte)) : list byte :=
  concat (map snd recs).

(** The offset of the byte after the first [k] records of a file. *)
Definition offset_after (recs : list (item * list byte)) (k : nat) : Z :=
  Z.of_nat (_fmt_size + length (data_of (firstn k recs))).

(** The invariant of the loop of [do_serialize] after the records [recs]:
    the counter, the bytes, and a table of contents whose keys increase and
    whose entries are the offsets after that many records. *)
Definition toc_ok (recs : list (item * list byte)) (toc : list (Z * Z)) : Prop :=
  StronglySorted Z.lt (map fst toc)
  /\ forall k o, In (k, o) toc ->
       0 < k <= Z.of_nat (length recs) /\ o = offset_after recs (Z.to_nat k).

Definition wstate_ok (header0 : list byte) (recs : list (item * list byte))
    (st : wstate) : Prop :=
  records st = Z.of_nat (length recs)
  /\ afile st = header0 ++ data_of recs
  /\ toc_ok recs (table_of_contents st).

End ReadBack.

(** The bytes of a table of contents. *)
Definition toc_bytes_of (toc : list (Z * Z)) : list byte :=
  flat_map (fun e => le_split 8 (fst e) ++ le_split 8 (snd e)) toc.

(** The file with the records [recs] and the table of contents [toc]. *)
Definition header_of (recs : list (item * list byte)) : list byte :=
  le_split 8 (Z.of_nat (length recs))
  ++ le_split 8 (offset_after recs (length recs)).

Definition file_of (recs : list (item * list byte)) (toc : list (Z * Z))
  : list byte :=
  header_of recs ++ data_of recs ++ toc_bytes_of toc.


(** ** DiskBackedTrie *)

Module DiskBackedTrie.

(** The attributes of [class DiskBackedTrie] ([self.fork_length] is
    [config.fork_length]) and the two stores of the partitions.
    [serialized] holds the calls of [MemoryTrieSerializer.serialize] made so
    far, newest first, each with the file name ([sanitize]'s index) and the
    trie stored; the [memory_cache[fname]] of the source is the newest entry
    under [fname].  [files] holds the files that a binary serializer wrote
    in the directory [config.trie_intermediate_storage], newest first, each
    with its name and its content (the directory is taken to exist or to be
    creatable, and writable). *)
Record t : Type := mk {
  config : ModelDefaults;
  current_node : option NodeTrie;
  current_branch_key : option str;
  weights : NodeTrie;
  keys : list str;
  serialized : list (nat * NodeTrie);
  files : list (nat * list byte)
}.


(** [TrieSerializer.getFactory(config, True)] gives a
    [MemoryTrieSerializer] when [config.trie_intermediate_storage] is
    [':memory:'], and otherwise the binary serializer of
    [config.trie_serializer_type]. *)
Definition in_memory (c : ModelDefaults) : bool :=
  String.eqb (trie_intermediate_storage c) ":memory:".

(** [memory_cache[fname]] *)
Definition memory_cache (cache : list (nat * NodeTrie)) (fname : nat)
  : option NodeTrie :=
  option_map snd (find (fun e => Nat.eqb (fst e) fname) cache).

(** The content of the file [fname]; [None] when there is none. *)
Definition file_bytes (fs : list (nat * list byte)) (fname : nat)
  : option (list byte) :=
  option_map snd (find (fun e => Nat.eqb (fst e) fname) fs).

(** [sanitize]: [None] is the failed [assert prefix in self.keys]. *)
Definition sanitize (self : t) (prefix : str) : option nat :=
  index_of str_eqb prefix (keys self).

(** [close_branch]: [self.make_serializer().serialize(self.current_node)]
    puts the trie in the memory cache, or writes its file, which raises
    when [do_serialize] does. *)
Definition close_branch (self : t) : option t :=
  match current_branch_key self with
  | Some key =>
      match current_node self, sanitize self key with
      | Some node, Some fname =>
          if in_memory (config self) then
            Some (mk (config self) None None (weights self) (keys self)
                     ((fname, node) :: serialized self) (files self))
          else
            match @serialize_trie (trie_serializer_encoding (config self))
                    (trie_serializer_type (config self))
                    (toc_chunk_size (config self)) node with
            | Some content =>
                Some (mk (config self) None None (weights self) (keys self)
                         (serialized self) ((fname, content) :: files self))
            | None => None
            end
      | _, _ => None
      end
  | None =>
      Some (mk (config self) None None (weights self) (keys self)
               (serialized self) (files self))
  end.

(** [open_new_branch] *)
Definition open_new_branch (self : t) (key : str) : option t :=
  match close_branch self with
  | Some s =>
      Some (mk (config s) (Some NodeTrie_init) (Some key) (weights s)
               (keys s ++ [key]) (serialized s) (files s))
  | None => None
  end.

(** [start != self.current_branch_key] *)
Definition differs (start : str) (key : option str) : bool :=
  match key with
  | Some k => negb (str_eqb start k)
  | None => true
  end.

(** [DiskBackedTrie.increment] *)
Definition increment (self : t) (aword : str) (w : Z) : option t :=
  let start := slice_to (fork_length (config self)) aword in
  let end_ := slice_from (fork_length (config self)) aword in
  match (if differs start (current_branch_key self)
         then open_new_branch self start else Some self) with
  | Some s =>
      match current_node s with
      | Some node =>
          Some (mk (config s) (Some (increment node end_ w))
                   (current_branch_key s) (increment (weights s) start w)
                   (keys s) (serialized s) (files s))
      | None => None
      end
  | None => None
  end.

(** [DiskBackedTrie.finish]; the two [set_intermediate_info] calls persist
    [keys] and [weights], which stay in the record. *)
Definition finish (self : t) : option t :=
  match current_branch_key self with
  | Some _ => close_branch self
  | None => Some self
  end.

(** [self.make_serializer().deserialize()] for the file [fname]: the
    entries of the trie in the memory cache, or the records of the file;
    [None] when there is no such entry or file, or when reading raises. *)
Definition deserialize_branch (self : t) (fname : nat) : option (list item) :=
  if in_memory (config self) then
    match memory_cache (serialized self) fname with
    | Some trie => Some (iterate trie (trie_serializer_type (config self)))
    | None => None
    end
  else
    match file_bytes (files self) fname with
    | Some content =>
        @deserialize (trie_serializer_encoding (config self))
          (trie_serializer_type (config self)) content
    | None => None
    end.

(** [iterate_subtrees]: [None] when a partition cannot be read or its key
    is not in [keys]. *)
Fixpoint iterate_subtrees_from (self : t) (serial_type : serializer_type)
    (ks : list str) : option (list item) :=
  match ks with
  | [] => Some []
  | key :: ks' =>
      match sanitize self key with
      | Some fname =>
          match deserialize_branch self fname with
          | Some items =>
              match iterate_subtrees_from self serial_type ks' with
              | Some rest =>
                  Some (map (fun subitem => (key ++ fst subitem, snd subitem))
                            items
                        ++ rest)
              | None => None
              end
          | None => None
          end
      | None => None
      end
  end.

Definition iterate_subtrees (self : t) (serial_type : serializer_type)
  : option (list item) :=
  iterate_subtrees_from self serial_type (keys self).

(** [DiskBackedTrie.iterate] *)
Definition iterate (self : t) (serial_type : serializer_type)
  : option (list item) :=
  match finish self with
  | Some s =>
      match iterate_subtrees s serial_type with
      | Some subs => Some (iterate (weights s) serial_type ++ subs)
      | None => None
      end
  | None => None
  end.

(** The increments of a whole corpus, in order. *)
Fixpoint increment_all (self : t) (incs : list (str * Z)) : option t :=
  match incs with
  | [] => Some self
  | (aword, w) :: incs' =>
      match increment self aword w with
      | Some s => increment_all s incs'
      | None => None
      end
  end.



End DiskBackedTrie.











(** ** CharacterTable, Filterer, GuessSerializer *)

(** [class CharacterTable] (the table without rare-character or uppercase
    optimisation): [self.chars = sorted(set(chars))]. *)
Record CharacterTable : Type := mkCharacterTable {
  chars : list ascii;
  maxlen : Z
}.

Definition CharacterTable_init (bag : str) (ml : Z) : CharacterTable :=
  mkCharacterTable (sorted_chars (set_chars bag)) ml.

(** [get_char_index]: [None] is the [KeyError]. *)
Definition get_char_index (ctable : CharacterTable) (character : ascii)
  : option nat :=
  index_of Ascii.eqb character (chars ctable).

(** [CharacterTable.encode] raises on a character that is not in the table
    and on a string longer than the matrix. *)
Definition encodable (ctable : CharacterTable) (C : str) : bool :=
  forallb (fun c => match get_char_index ctable c with
                    | Some _ => true
                    | None => false
                    end) C
  && (len C <=? maxlen ctable).

(** [Filterer.pwd_is_valid] (the counters it updates are left out). *)
Definition pwd_is_valid (config : ModelDefaults) (pwd : str) : bool :=
  let pwd := strip PASSWORD_END pwd in
  forallb (fun c => char_in c (char_bag config)) pwd
  && (len pwd <=? max_len config)
  && (len pwd >=? min_len config).

(** [alist[i] = v]; [None] is the [IndexError]. *)
Fixpoint list_set {A} (i : nat) (v : A) (l : list A) : option (list A) :=
  match l, i with
  | [], _ => None
  | _ :: l', O => Some (v :: l')
  | a :: l', S i' => option_map (cons a) (list_set i' v l')
  end.

Definition Qsum (l : list Q) : Q := fold_right Qplus (0 # 1) l.

Definition Qlt_bool (x y : Q) : bool := negb (Qle_bool y x).

(** ** Floating-point values *)

(** A probability as the search computes it: a number (exact, rounding is
    left out) or one of the values that numpy's division by zero gives,
    an infinity or not-a-number. *)
Inductive float : Type :=
| Num (q : Q)
| PosInf
| NegInf
| NaN.

(** [v / s] on numpy numbers: [0 / 0] is nan and any other division by
    zero is an infinity; numpy warns and does not raise. *)
Definition float_div (v s : Q) : float :=
  if Qeq_bool s (0 # 1) then
    if Qeq_bool v (0 # 1) then NaN
    else if Qlt_bool (0 # 1) v then PosInf else NegInf
  else Num (Qdiv v s).

(** [a * b] *)
Definition float_mul (a b : float) : float :=
  match a, b with
  | NaN, _ => NaN
  | _, NaN => NaN
  | Num x, Num y => Num (Qmult x y)
  | Num x, PosInf | PosInf, Num x =>
      if Qeq_bool x (0 # 1) then NaN
      else if Qlt_bool (0 # 1) x then PosInf else NegInf
  | Num x, NegInf | NegInf, Num x =>
      if Qeq_bool x (0 # 1) then NaN
      else if Qlt_bool (0 # 1) x then NegInf else PosInf
  | PosInf, PosInf | NegInf, NegInf => PosInf
  | PosInf, NegInf | NegInf, PosInf => NegInf
  end.

(** [a < t] and [a >= t] against a number: both are false for nan. *)
Definition float_lt (a : float) (t : Q) : bool :=
  match a with
  | Num x => Qlt_bool x t
  | NegInf => true
  | PosInf | NaN => false
  end.

Definition float_ge (a : float) (t : Q) : bool :=
  match a with
  | Num x => Qle_bool t x
  | PosInf => true
  | NegInf | NaN => false
  end.

(** ** Guesser and ParallelGuesser *)

(** What a search does, in order: a call of the oracle ([Predict], with
    the prefix and its cumulative probability), a call of
    [output_serializer.serialize] ([Emit]) and an append to [fork_points]
    ([ForkPoint]). *)
Inductive event : Type :=
| Predict (astring : str) (prob : float)
| Emit (password : str) (prob : float)
| ForkPoint (astring : str) (prob : float).

(** How a search ends: it returns, an exception leaves it, or the model
    has no fuel left. *)
Inductive outcome : Type := Done | Raise | OutOfFuel.

Definition trace : Type := (list event * outcome)%type.

(** [a; b]: [b] runs when [a] has returned. *)
Definition then_ (a b : trace) : trace :=
  match snd a with
  | Done => (fst a ++ fst b, snd b)
  | _ => a
  end.

Fixpoint for_each {A} (l : list A) (body : A -> trace) : trace :=
  match l with
  | [] => ([], Done)
  | x :: l' => then_ (body x) (for_each l' body)
  end.

(** The shape of the strings of a search that starts from a prefix without
    end marker: an emitted password has no end marker except, possibly, one
    at its end; a fork point has none. *)
Definition well_terminated (e : event) : Prop :=
  match e with
  | Emit password _ =>
      ~ In PASSWORD_END password
      \/ exists s, password = s ++ [PASSWORD_END] /\ ~ In PASSWORD_END s
  | ForkPoint astring _ => ~ In PASSWORD_END astring
  | Predict _ _ => True
  end.

Section Guesser.

(** [self.config]; [self.model], as the function from the padded prefix
    that [conditional_probs] encodes to the vector
    [model.predict(np_inp)[0][0]]; ['%s' % prob]; and, for a text written
    to a buffered text stream that is neither flushed nor closed, the part
    that has reached the file: what the library has written out when its
    buffer was full, nothing as long as the text fits in the buffer. *)
Variable config : ModelDefaults.
Variable model : str -> list Q.
Variable str_of_prob : float -> str.
Variable on_disk : str -> str.

(** [self.ctable = CharacterTable.fromConfig(self.config)] *)
Definition ctable : CharacterTable :=
  CharacterTable_init (char_bag config) (max_len config).

(** [GuessSerializer.serialize]: the text written to the stream. *)
Definition serialize (password : str) (prob : float) : str :=
  strip PASSWORD_END password ++ [TAB] ++ str_of_prob prob ++ [PASSWORD_END].

(** [cond_prob_from_preds]; [None] is a [KeyError] or an [IndexError]. *)
Definition cond_prob_from_preds {A : Type} (char : ascii) (preds : list A)
  : option A :=
  match get_char_index ctable char with
  | Some i => nth_error preds i
  | None => None
  end.

(** The [for c in self.ctable.chars] loop of [relevel_prediction]. *)
Fixpoint force_end (cs : list ascii) (preds : list Q) : option (list Q) :=
  match cs with
  | [] => Some preds
  | c :: cs' =>
      match get_char_index ctable c with
      | Some i =>
          match list_set i (if Ascii.eqb c PASSWORD_END then 1 # 1 else 0 # 1)
                         preds with
          | Some preds' => force_end cs' preds'
          | None => None
          end
      | None => None
      end
  end.

(** [relevel_prediction]: the vector [preds] after the call.  [None] is an
    exception, or a sum of zero, for which the quotients are not numbers. *)
Definition relevel_prediction (preds : list Q) (astring : str)
  : option (list Q) :=
  match (if negb (pwd_is_valid config astring) then
           match get_char_index ctable PASSWORD_END with
           | Some i => list_set i (0 # 1) preds
           | None => None
           end
         else if len astring =? max_len config then
           force_end (chars ctable) preds
         else Some preds) with
  | Some forced =>
      let sum_per := Qsum forced in
      if Qeq_bool sum_per (0 # 1) then None
      else Some (map (fun v => Qdiv v sum_per) forced)
  | None => None
  end.

(** [relevel_prediction] as it runs on numpy numbers.  [relevel_forced] is
    its first part, the entries that are set; the second part divides every
    entry by the sum and, where the sum is zero, leaves nan or an infinity
    in the vector without raising.  [None] is an exception. *)
Definition relevel_forced (preds : list Q) (astring : str)
  : option (list Q) :=
  if negb (pwd_is_valid config astring) then
    match get_char_index ctable PASSWORD_END with
    | Some i => list_set i (0 # 1) preds
    | None => None
    end
  else if len astring =? max_len config then
    force_end (chars ctable) preds
  else Some preds.

Definition relevel_floats (preds : list Q) (astring : str)
  : option (list float) :=
  match relevel_forced preds astring with
  | Some forced =>
      let sum_per := Qsum forced in
      Some (map (fun v => float_div v sum_per) forced)
  | None => None
  end.

(** [conditional_probs] *)
Definition conditional_probs (astring : str) : option (list float) :=
  let padded :=
    astring ++ str_repeat PASSWORD_END (max_len config - len astring) in
  if encodable ctable padded then
    let answer := model padded in
    if relevel_not_matching_passwords config
    then relevel_floats answer (strip PASSWORD_END astring)
    else Some (map Num answer)
  else None.

(** The body of [Guesser.recur]; [self_recur] is [self.recur], which a
    subclass overrides. *)
Definition recur_body (self_recur : str -> float -> trace)
    (astring : str) (prob : float) : trace :=
  if float_lt prob (lower_probability_threshold config) then ([], Done)
  else if len astring >? max_len config then
    if len (strip PASSWORD_END astring) =? max_len config
    then ([Emit astring prob], Done)
    else ([], Done)
  else
    then_ ([Predict astring prob], Done)
      match conditional_probs astring with
      | None => ([], Raise)
      | Some prediction =>
          for_each (chars ctable) (fun char =>
            let chain_pass := astring ++ [char] in
            match cond_prob_from_preds char prediction with
            | None => ([], Raise)
            | Some p =>
                let chain_prob := float_mul p prob in
                if Ascii.eqb char PASSWORD_END
                   && float_ge chain_prob (lower_probability_threshold config)
                then ([Emit chain_pass chain_prob], Done)
                else if negb (Ascii.eqb char PASSWORD_END)
                then self_recur chain_pass chain_prob
                else ([], Done)
            end)
      end.

(** [Guesser.recur] *)
Fixpoint Guesser_recur (fuel : nat) (astring : str) (prob : float)
  : trace :=
  match fuel with
  | O => ([], OutOfFuel)
  | S fuel' => recur_body (Guesser_recur fuel') astring prob
  end.

(** [ParallelGuesser.recur] *)
Fixpoint ParallelGuesser_recur (fuel : nat) (astring : str) (prob : float)
  : trace :=
  match fuel with
  | O => ([], OutOfFuel)
  | S fuel' =>
      if len astring =? fork_length config
      then ([ForkPoint astring prob], Done)
      else recur_body (ParallelGuesser_recur fuel') astring prob
  end.

(** Fuel for a search from [astring]: a call with a prefix longer than
    [max_len] does not recurse, and every call adds one character. *)
Definition recur_fuel (astring : str) : nat :=
  S (Z.to_nat (max_len config + 1 - len astring)).

(** What a trace leaves behind: the text on the output stream,
    [self.fork_points] and [self.generated]. *)
Definition output_of (tr : list event) : str :=
  flat_map (fun e => match e with
                     | Emit password prob => serialize password prob
                     | _ => []
                     end) tr.

Definition fork_points_of (tr : list event) : list (str * float) :=
  flat_map (fun e => match e with
                     | ForkPoint astring prob => [(astring, prob)]
                     | _ => []
                     end) tr.

Definition generated_of (tr : list event) : nat :=
  length (filter (fun e => match e with Emit _ _ => true | _ => false end) tr).

(** What the worker started at the fork point [node] writes to its file. *)
Definition worker_output (node : str * float) : str :=
  output_of
    (fst (Guesser_recur (recur_fuel (fst node)) (fst node) (snd node))).

(** [Guesser.guess] *)
Definition Guesser_guess : trace :=
  Guesser_recur (recur_fuel []) [] (Num (1 # 1)).

(** Files by name, newest binding first.  A file holds the text that has
    reached it: all that was written once the stream is flushed or closed.
    On the systems of the model a newline is written as it is. *)
Definition files : Type := list (nat * str).

Definition file_content (fs : files) (name : nat) : option str :=
  option_map snd (find (fun e => Nat.eqb (fst e) name) fs).

Definition CARRIAGE_RETURN : ascii := ascii_of_nat 13.

(** What a stream opened with [open(name, 'r')] delivers: a carriage
    return, alone or before a newline, is read as a newline. *)
Fixpoint universal_newlines (text : str) : str :=
  match text with
  | [] => []
  | c :: rest =>
      if Ascii.eqb c CARRIAGE_RETURN then
        match rest with
        | d :: rest' =>
            if Ascii.eqb d PASSWORD_END
            then PASSWORD_END :: universal_newlines rest'
            else PASSWORD_END :: universal_newlines rest
        | [] => [PASSWORD_END]
        end
      else c :: universal_newlines rest
  end.

(** [for line in stream]: the lines of the text that the stream delivers,
    each with its newline. *)
Fixpoint lines_from (cur : str) (text : str) : list str :=
  match text with
  | [] => if is_empty cur then [] else [cur]
  | c :: text' =>
      if Ascii.eqb c PASSWORD_END then (cur ++ [c]) :: lines_from [] text'
      else lines_from (cur ++ [c]) text'
  end.

Definition lines (text : str) : list str := lines_from [] text.

(** [Guesser.do_guessing] in a worker: the file [ofname] is opened for
    writing, the search runs from [start], the file is closed.  The result
    is the file system and [guesser.generated]; [None] when the search
    raises. *)
Definition Guesser_do_guessing (fs : files) (ofname : nat)
    (start : str) (start_prob : float) : option (files * nat) :=
  match Guesser_recur (recur_fuel start) start start_prob with
  | (tr, Done) => Some ((ofname, output_of tr) :: fs, generated_of tr)
  | _ => None
  end.

(** The state of a [ParallelGuesser]: the name of [self.tempOstream],
    [self.fork_points], [self.intermediate_files] (names),
    [self.generated], the text written to [self.real_output], the file
    system and the next unused temporary name. *)
Record ParallelGuesser : Type := mkParallelGuesser {
  tempOstream : nat;
  fork_points : list (str * float);
  intermediate_files : list nat;
  generated : nat;
  real_output : str;
  fs : files;
  next_name : nat
}.

(** [ParallelGuesser.__init__]: the temporary file of the root search. *)
Definition ParallelGuesser_init : ParallelGuesser :=
  mkParallelGuesser O [] [] O [] [(O, [])] 1%nat.

(** [arg_list]: [prepare_argument_dict] makes one new temporary file for
    every fork point, in order; an argument is the node and the file. *)
Fixpoint arg_list_from (nodes : list (str * float)) (self : ParallelGuesser)
  : list ((str * float) * nat) * ParallelGuesser :=
  match nodes with
  | [] => ([], self)
  | node :: nodes' =>
      let new_file := next_name self in
      let self' :=
        mkParallelGuesser (tempOstream self) (fork_points self)
          (intermediate_files self ++ [new_file]) (generated self)
          (real_output self) ((new_file, []) :: fs self) (S new_file) in
      let (args, self'') := arg_list_from nodes' self' in
      ((node, new_file) :: args, self'')
  end.

Definition arg_list (self : ParallelGuesser)
  : list ((str * float) * nat) * ParallelGuesser :=
  arg_list_from (fork_points self) self.

(** The pool: the workers finish in the order [schedule] (positions in
    [args]); every worker runs [fork_entry_point] on its argument.  The
    result is the file system and the number of guesses of every worker
    that ran; [None] when a worker raises. *)
Fixpoint run_workers (args : list ((str * float) * nat)) (schedule : list nat)
    (fs0 : files) : option (files * list nat) :=
  match schedule with
  | [] => Some (fs0, [])
  | i :: schedule' =>
      match nth_error args i with
      | Some (node, ofile) =>
          match Guesser_do_guessing fs0 ofile (fst node) (snd node) with
          | Some (fs1, n) =>
              match run_workers args schedule' fs1 with
              | Some (fs2, ns) => Some (fs2, n :: ns)
              | None => None
              end
          | None => None
          end
      | None => None
      end
  end.

(** [collect_answer]: every file of [[self.tempOstream] +
    self.intermediate_files] is opened by its name for reading, and every
    line it delivers goes to [self.real_output], in that order; [None]
    when a file does not exist. *)
Fixpoint copy_streams (fs0 : files) (names : list nat) (out : str)
  : option str :=
  match names with
  | [] => Some out
  | n :: names' =>
      match file_content fs0 n with
      | Some text =>
          copy_streams fs0 names'
            (out ++ concat (lines (universal_newlines text)))
      | None => None
      end
  end.

Definition collect_answer (self : ParallelGuesser) : option ParallelGuesser :=
  match copy_streams (fs self) (tempOstream self :: intermediate_files self)
                     (real_output self) with
  | Some out =>
      Some (mkParallelGuesser (tempOstream self) (fork_points self)
              (intermediate_files self) (generated self) out (fs self)
              (next_name self))
  | None => None
  end.

(** [do_forking] without an interrupt.  [multiprocessing.Pool(n)] raises a
    [ValueError] for [n = 0], which is the case when there is no fork
    point. *)
Definition do_forking (schedule : list nat) (self : ParallelGuesser)
  : option ParallelGuesser :=
  let (args, self1) := arg_list self in
  if is_empty args then None
  else
    match run_workers args schedule (fs self1) with
    | Some (fs2, answer) =>
        collect_answer
          (mkParallelGuesser (tempOstream self1) (fork_points self1)
             (intermediate_files self1)
             (fold_right Nat.add O answer + generated self1)%nat
             (real_output self1) fs2 (next_name self1))
    | None => None
    end.

(** [ParallelGuesser.guess]: the root search writes to [tempOstream] and
    collects the fork points, then [do_forking].  [tempOstream] is a
    buffered stream that the class never flushes or closes, so its file
    holds [on_disk] of the text of the root search when [collect_answer]
    opens it by name. *)
Definition ParallelGuesser_guess (schedule : list nat)
  : option ParallelGuesser :=
  match ParallelGuesser_recur (recur_fuel []) [] (Num (1 # 1)) with
  | (tr, Done) =>
      let self := ParallelGuesser_init in
      do_forking schedule
        (mkParallelGuesser (tempOstream self) (fork_points_of tr)
           (intermediate_files self) (generated_of tr) (real_output self)
           ((tempOstream self, on_disk (output_of tr)) :: fs self)
           (next_name self))
  | _ => None
  end.

(** An event respects the threshold when the comparison [prob < t] of the
    search does not find its probability below the threshold: the
    probability is a number that is not smaller, or plus infinity, or
    nan. *)
Definition above_threshold (e : event) : Prop :=
  match e with
  | Predict _ prob => float_lt prob (lower_probability_threshold config) = false
  | Emit _ prob => float_lt prob (lower_probability_threshold config) = false
  | ForkPoint _ _ => True
  end.

(** A pair is emitted at the threshold when [prob >= t] holds: its
    probability is not nan. *)
Definition emitted_at_least (e : event) : Prop :=
  match e with
  | Emit _ prob => float_ge prob (lower_probability_threshold config) = true
  | _ => True
  end.

End Guesser.

(** ** Concrete inputs *)

(** A small alphabet: [a], [b] and the end marker; passwords of two
    characters. *)
Definition tiny_config : ModelDefaults := {|
  char_bag := L "ab" ++ [PASSWORD_END];
  max_len := 2;
  min_len := 2;
  lower_probability_threshold := 1 # 20;
  relevel_not_matching_passwords := true;
  parallel_guessing := true;
  fork_length := 1;
  simulated_frequency_optimization := false;
  trie_implementation := None;
  trie_intermediate_storage := ":memory:";
  trie_serializer_encoding := utf8;
  trie_serializer_type := reg;
  toc_chunk_size := 2;
  model_truncate_gradient := -1
|}.

(** The oracle that gives every symbol the same probability. *)
Definition uniform_model (_ : str) : list Q := [1 # 3; 1 # 3; 1 # 3].

(** A printer of probabilities: numerator, a slash, denominator, in binary
    digits. *)
Fixpoint bits (p : positive) : str :=
  match p with
  | xH => ["1"%char]
  | xO p' => bits p' ++ ["0"%char]
  | xI p' => bits p' ++ ["1"%char]
  end.

Definition prob_text (q : Q) : str :=
  match Qnum q with
  | Z0 => ["0"%char]
  | Zpos p => bits p
  | Zneg p => "-"%char :: bits p
  end ++ ["/"%char] ++ bits (Qden q).

(** A printer of floating-point values. *)
Definition float_text (p : float) : str :=
  match p with
  | Num q => prob_text q
  | PosInf => L "inf"
  | NegInf => L "-inf"
  | NaN => L "nan"
  end.

(** The oracle that gives the end marker the whole probability. *)
Definition end_only_model (_ : str) : list Q := [1 # 1; 0 # 1; 0 # 1].

(** [tiny_config] without releveling. *)
Definition plain_config : ModelDefaults := {|
  char_bag := L "ab" ++ [PASSWORD_END];
  max_len := 2;
  min_len := 2;
  lower_probability_threshold := 1 # 20;
  relevel_not_matching_passwords := false;
  parallel_guessing := true;
  fork_length := 1;
  simulated_frequency_optimization := false;
  trie_implementation := None;
  trie_intermediate_storage := ":memory:";
  trie_serializer_encoding := utf8;
  trie_serializer_type := reg;
  toc_chunk_size := 2;
  model_truncate_gradient := -1
|}.

(** A buffered stream of which nothing has reached the file: the text
    written fits in the buffer. *)
Definition all_buffered (text : str) : str := [].

(** The defaults with a threshold of zero. *)
Definition zero_threshold_config : ModelDefaults := {|
  char_bag := char_bag ModelDefaults_init;
  max_len := 40;
  min_len := 4;
  lower_probability_threshold := 0 # 1;
  relevel_not_matching_passwords := true;
  parallel_guessing := false;
  fork_length := 2;
  simulated_frequency_optimization := false;
  trie_implementation := None;
  trie_intermediate_storage := ":memory:";
  trie_serializer_encoding := utf8;
  trie_serializer_type := reg;
  toc_chunk_size := 1000;
  model_truncate_gradient := -1
|}.

(** The defaults with a fork length equal to the minimum length. *)
Definition bad_fork_config : ModelDefaults := {|
  char_bag := char_bag ModelDefaults_init;
  max_len := 40;
  min_len := 4;
  lower_probability_threshold := 1 # 100000;
  relevel_not_matching_passwords := true;
  parallel_guessing := false;
  fork_length := 4;
  simulated_frequency_optimization := false;
  trie_implementation := None;
  trie_intermediate_storage := ":memory:";
  trie_serializer_encoding := utf8;
  trie_serializer_type := reg;
  toc_chunk_size := 1000;
  model_truncate_gradient := -1
|}.

(** A small corpus, its trie, and the file of the trie with a table of
    contents entry every two records. *)
Definition small_corpus : list (str * Z) :=
  [(L "ab", 1); (L "ac", 2); (L "b", 5)].

Definition small_trie : NodeTrie := increment_all NodeTrie_init small_corpus.


(** Two keys whose weights fit in 64 bits and add up to 2^64 at the node of
    their common prefix. *)
Definition overflow_corpus : list (str * Z) :=
  [(L "a", 2 ^ 63); (L "ab", 2 ^ 63)].

(** A file that is only a header, which announces one record. *)
Definition header_only_file : list byte := le_split 8 1 ++ le_split 8 16.

(** One record and the file that holds it under a header that announces
    two. *)
Definition one_record : item * list byte :=
  ((L "a", Weight 3),
   match @write_record latin1 reg (L "a") (Weight 3) with
   | Some bs => bs
   | None => []
   end).






(** ** Orders *)


(** ** The table of contents *)

(** The record counts at which [do_serialize] notes an offset: the counts
    from 1 to [n] with [records % self.toc_chunk_size == 0]. *)
Definition toc_keys (chunk_size : Z) (n : nat) : list Z :=
  filter (fun k => k mod chunk_size =? 0) (map Z.of_nat (seq 1 n)).

(** What [read_value] of the fuzzy serializer finds for a pair that
    [write_value] wrote under Latin-1: the first character of the text, or
    a null character for an empty text. *)
Definition first_char (cw : str * Z) : str * Z :=
  ([hd Ascii.zero (fst cw)], snd cw).

(** * Theorems *)

(** ** NodeTrie *)

Lemma str_eqb_eq a b : str_eqb a b = true <-> a = b.
Proof.
  unfold str_eqb. destruct (list_eq_dec ascii_dec a b); split; congruence.
Qed.

Lemma str_eqb_refl a : str_eqb a a = true.
Proof. now apply str_eqb_eq. Qed.


Lemma find_child_update_same c f ns :
  find_child c (update_child c f ns) =
  Some (f (match find_child c ns with Some t => t | None => NodeTrie_init end)).
Proof.
  induction ns as [|[k t] ns IH]; simpl.
  - now rewrite Ascii.eqb_refl.
  - destruct (Ascii.eqb k c) eqn:E; simpl; rewrite E; auto.
Qed.

Lemma find_child_update_other c d f ns :
  c <> d -> find_child d (update_child c f ns) = find_child d ns.
Proof.
  intros Hcd. induction ns as [|[k t] ns IH]; simpl.
  - destruct (Ascii.eqb c d) eqn:E; auto.
    apply Ascii.eqb_eq in E. contradiction.
  - destruct (Ascii.eqb k c) eqn:E; simpl.
    + apply Ascii.eqb_eq in E. subst k.
      destruct (Ascii.eqb c d) eqn:E2; auto.
      apply Ascii.eqb_eq in E2. contradiction.
    + destruct (Ascii.eqb k d); auto.
Qed.

Lemma weight_walk k w t : weight (walk k w t) = weight t + w.
Proof. destruct k; reflexivity. Qed.

Lemma node_at_init p : node_at NodeTrie_init p = match p with [] => Some NodeTrie_init | _ => None end.
Proof. destruct p; reflexivity. Qed.

(** The loop adds [w] to the node of every prefix of the key, creating the
    nodes that are missing, and touches nothing else. *)
Lemma walk_spec k w : forall t p,
  weight_at (walk k w t) p =
    weight_at t p + (if is_prefix p k then w else 0)
  /\ has_node (walk k w t) p = has_node t p || is_prefix p k.
Proof.
  induction k as [|c k IH]; intros t p.
  - destruct p as [|a p]; simpl.
    + unfold weight_at, has_node. simpl. split; [reflexivity|].
      reflexivity.
    + unfold weight_at, has_node. simpl.
      rewrite Z.add_0_r, orb_false_r. split; reflexivity.
  - destruct p as [|a p].
    + unfold weight_at, has_node. simpl. split; reflexivity.
    + unfold weight_at, has_node. simpl.
      destruct (Ascii.eqb a c) eqn:E.
      * apply Ascii.eqb_eq in E. subst a.
        rewrite find_child_update_same.
        destruct (find_child c (nodes t)) as [sub|] eqn:F.
        -- apply (IH sub p).
        -- specialize (IH NodeTrie_init p).
           unfold weight_at, has_node in IH.
           rewrite node_at_init in IH.
           destruct p; simpl in *; exact IH.
      * assert (c <> a) by (intro; subst; rewrite Ascii.eqb_refl in E; discriminate).
        rewrite find_child_update_other by assumption.
        rewrite Z.add_0_r, orb_false_r. split; reflexivity.
Qed.

Lemma increment_weight_at t k w p :
  weight_at (increment t k w) p =
  weight_at t p + (if is_prefix p k then w else 0)
  + (if is_empty p then w else 0).
Proof.
  unfold increment, increment_optimized.
  rewrite (proj1 (walk_spec k w _ p)).
  destruct p; unfold weight_at; simpl; lia.
Qed.

Lemma increment_has_node t k w p :
  has_node (increment t k w) p = has_node t p || is_prefix p k.
Proof.
  unfold increment, increment_optimized.
  rewrite (proj2 (walk_spec k w _ p)).
  destruct p; reflexivity.
Qed.

Lemma increment_prefix_weight_once t k w p :
  p <> [] -> is_prefix p k = true ->
  weight_at (increment t k w) p = weight_at t p + w.
Proof.
  intros Hp Hpre. rewrite increment_weight_at, Hpre.
  destruct p; [congruence|]. simpl. lia.
Qed.

(** C1 (code defect): [increment] adds the weight to the root twice, once
    before the loop and once more in the first iteration or after the loop;
    the root gains twice the weight at every increment, whatever the key. *)
Theorem increment_root_weight_twice (t : NodeTrie) (k : str) (w : Z) :
  weight (increment t k w) = weight t + 2 * w.
Proof.
  unfold increment, increment_optimized.
  rewrite weight_walk. simpl. lia.
Qed.

Example increment_root_example :
  weight (increment NodeTrie_init (L "a") 1) = 2.
Proof. reflexivity. Qed.

Lemma increment_all_root_weight incs : forall t,
  weight (increment_all t incs) = weight t + 2 * prefix_weight incs [].
Proof.
  induction incs as [|[k w] incs IH]; intros t; simpl.
  - lia.
  - unfold increment_all in *. simpl. rewrite IH.
    unfold increment, increment_optimized. rewrite weight_walk. simpl. lia.
Qed.

(** ** Iterating a NodeTrie *)

Lemma NodeTrie_induction (P : NodeTrie -> Prop) :
  (forall w ns, Forall (fun e => P (snd e)) ns -> P (mkNodeTrie w ns)) ->
  forall t, P t.
Proof.
  intros H. fix IH 1. intros [w ns]. apply H.
  induction ns as [|e ns IHns]; constructor.
  - apply IH.
  - exact IHns.
Qed.

Lemma random_iterate_eq w ns cur :
  random_iterate (mkNodeTrie w ns) cur
  = (if is_empty cur then [] else [(cur, w)])
    ++ flat_map (fun e => random_iterate (snd e) (cur ++ [fst e])) ns.
Proof.
  simpl. f_equal. induction ns as [|[k sub] ns IH]; simpl; [reflexivity|].
  now rewrite IH.
Qed.

Lemma wf_eq w ns :
  wf (mkNodeTrie w ns)
  <-> NoDup (map fst ns) /\ Forall (fun e => wf (snd e)) ns.
Proof.
  simpl. apply and_iff_compat_l.
  induction ns as [|[k sub] ns IH]; simpl.
  - split; [constructor|trivial].
  - rewrite IH. split.
    + intros [H1 H2]. now constructor.
    + intros H. inversion H; subst. now split.
Qed.

Lemma wf_init : wf NodeTrie_init.
Proof. simpl. split; constructor. Qed.

Lemma update_child_keys c f ns :
  map fst (update_child c f ns)
  = if existsb (Ascii.eqb c) (map fst ns) then map fst ns
    else map fst ns ++ [c].
Proof.
  induction ns as [|[k t] ns IH]; simpl; [reflexivity|].
  destruct (Ascii.eqb k c) eqn:E.
  - apply Ascii.eqb_eq in E. subst. now rewrite Ascii.eqb_refl.
  - rewrite Ascii.eqb_sym, E. simpl. rewrite IH.
    now destruct (existsb _ _).
Qed.

Lemma existsb_eqb_In c (l : list ascii) :
  existsb (Ascii.eqb c) l = true <-> In c l.
Proof.
  rewrite existsb_exists. split.
  - intros (x & Hx & E). apply Ascii.eqb_eq in E. now subst.
  - intros H. exists c. split; [exact H|apply Ascii.eqb_refl].
Qed.

Lemma update_child_wf c f ns :
  NoDup (map fst ns) -> Forall (fun e => wf (snd e)) ns ->
  (forall t, wf t -> wf (f t)) ->
  NoDup (map fst (update_child c f ns))
  /\ Forall (fun e => wf (snd e)) (update_child c f ns).
Proof.
  intros Hnd Hall Hf. split.
  - rewrite update_child_keys.
    destruct (existsb (Ascii.eqb c) (map fst ns)) eqn:E; [exact Hnd|].
    apply NoDup_app; [exact Hnd|repeat constructor; intros []|].
    intros x Hx [<-|[]].
    apply existsb_eqb_In in Hx. congruence.
  - clear Hnd. induction ns as [|[k t] ns IH]; simpl.
    + constructor; [|constructor]. apply Hf, wf_init.
    + inversion Hall as [|? ? Ht Hns]; subst.
      destruct (Ascii.eqb k c).
      * constructor; [apply Hf, Ht|exact Hns].
      * constructor; [exact Ht|apply IH, Hns].
Qed.

Lemma walk_wf k w : forall t, wf t -> wf (walk k w t).
Proof.
  induction k as [|c k IH]; intros [wt ns] Hwf.
  - exact Hwf.
  - cbn [walk weight nodes]. apply wf_eq. apply wf_eq in Hwf.
    destruct Hwf as [Hnd Hall]. now apply update_child_wf.
Qed.

Lemma increment_wf t k w : wf t -> wf (increment t k w).
Proof.
  intros H. unfold increment, increment_optimized. apply walk_wf.
  destruct t. exact H.
Qed.

Lemma increment_all_wf incs : forall t, wf t -> wf (increment_all t incs).
Proof.
  induction incs as [|[k w] incs IH]; intros t H; [exact H|].
  apply IH. now apply increment_wf.
Qed.

Lemma find_child_In ns k sub :
  NoDup (map fst ns) -> In (k, sub) ns -> find_child k ns = Some sub.
Proof.
  induction ns as [|[k' t] ns IH]; intros Hnd Hin; [contradiction|].
  simpl in Hnd. inversion Hnd as [|? ? Hnot Hnd']; subst. simpl.
  destruct Hin as [[= -> ->]|Hin].
  - now rewrite Ascii.eqb_refl.
  - destruct (Ascii.eqb k' k) eqn:E; [|now apply IH].
    apply Ascii.eqb_eq in E. subst. exfalso. apply Hnot.
    now apply (in_map fst) in Hin.
Qed.

Lemma find_child_Some ns k sub :
  find_child k ns = Some sub -> In (k, sub) ns.
Proof.
  induction ns as [|[k' t] ns IH]; simpl; [discriminate|].
  destruct (Ascii.eqb k' k) eqn:E.
  - apply Ascii.eqb_eq in E. intros [= ->]. subst. now left.
  - intros H. right. now apply IH.
Qed.

(** The entries of [random_iterate] are the nodes below the root of the
    iteration, each with its weight, under the path that leads to it. *)
Lemma random_iterate_In : forall t, wf t -> forall cur p w,
  In (p, w) (random_iterate t cur)
  <-> p <> [] /\ exists q n, p = cur ++ q /\ node_at t q = Some n
                             /\ weight n = w.
Proof.
  induction t as [wt ns IH] using NodeTrie_induction.
  intros Hwf cur p w. apply wf_eq in Hwf. destruct Hwf as [Hnd Hall].
  rewrite random_iterate_eq, in_app_iff, in_flat_map. split.
  - intros [Hhere|([k sub] & Hin & Hsub)].
    + destruct cur as [|c cur]; [contradiction|].
      destruct Hhere as [[= <- <-]|[]]. split; [discriminate|].
      exists [], (mkNodeTrie wt ns). now rewrite app_nil_r.
    + rewrite Forall_forall in IH, Hall.
      apply (IH _ Hin (Hall _ Hin)) in Hsub.
      destruct Hsub as (Hp & q & n & -> & Hq & Hw). split; [exact Hp|].
      exists (k :: q), n. cbn [fst snd node_at nodes].
      rewrite (find_child_In _ _ _ Hnd Hin), <- app_assoc. auto.
  - intros (Hp & q & n & -> & Hq & Hw). destruct q as [|k q].
    + left. injection Hq as <-. simpl in Hw. subst.
      rewrite app_nil_r in *. destruct cur; [congruence|now left].
    + right. cbn [node_at nodes] in Hq.
      destruct (find_child k ns) as [sub|] eqn:Hf; [|discriminate].
      apply find_child_Some in Hf. exists (k, sub). split; [exact Hf|].
      rewrite Forall_forall in IH, Hall.
      apply (IH _ Hf (Hall _ Hf)). split; [exact Hp|].
      exists q, n. cbn [fst snd]. now rewrite <- app_assoc.
Qed.




Lemma has_node_init p : has_node NodeTrie_init p = is_empty p.
Proof. unfold has_node. rewrite node_at_init. now destruct p. Qed.

Lemma weight_at_init p : weight_at NodeTrie_init p = 0.
Proof. unfold weight_at. rewrite node_at_init. now destruct p. Qed.

(** After the increments [incs] a node exists for every prefix of every
    key, and for nothing else; its weight is the total weight of the keys
    that start with its path. *)
Lemma increment_all_has_node incs : forall t p,
  has_node (increment_all t incs) p
  = has_node t p || existsb (fun kw => is_prefix p (fst kw)) incs.
Proof.
  induction incs as [|[k w] incs IH]; intros t p.
  - simpl. now rewrite orb_false_r.
  - unfold increment_all in *. cbn [fold_left fst snd existsb].
    rewrite IH, increment_has_node. now rewrite orb_assoc.
Qed.

Lemma increment_all_weight_at incs : forall t p,
  p <> [] ->
  weight_at (increment_all t incs) p = weight_at t p + prefix_weight incs p.
Proof.
  induction incs as [|[k w] incs IH]; intros t p Hp.
  - simpl. lia.
  - unfold increment_all in *. cbn [fold_left fst snd prefix_weight fold_right].
    rewrite IH by exact Hp. rewrite increment_weight_at.
    destruct p; [congruence|]. cbn [is_empty].
    fold (prefix_weight incs (a :: p)).
    destruct (is_prefix (a :: p) k); lia.
Qed.

Lemma has_node_weight_at t p :
  has_node t p = true ->
  exists n, node_at t p = Some n /\ weight n = weight_at t p.
Proof.
  unfold has_node, weight_at. destruct (node_at t p) as [n|]; [|discriminate].
  intros _. now exists n.
Qed.

(** The entries of the trie of a corpus. *)
Lemma corpus_entries incs p w :
  In (p, w) (random_iterate (increment_all NodeTrie_init incs) [])
  <-> p <> []
      /\ existsb (fun kw => is_prefix p (fst kw)) incs = true
      /\ w = prefix_weight incs p.
Proof.
  rewrite random_iterate_In by (apply increment_all_wf, wf_init).
  split.
  - intros (Hp & q & n & -> & Hq & Hw). cbn [app] in *.
    split; [exact Hp|].
    pose proof (increment_all_has_node incs NodeTrie_init q) as Hh.
    pose proof (increment_all_weight_at incs NodeTrie_init q Hp) as Hwt.
    rewrite has_node_init in Hh. rewrite weight_at_init in Hwt.
    unfold has_node in Hh. unfold weight_at in Hwt. rewrite Hq in Hh, Hwt.
    destruct q; [congruence|]. simpl in Hh. split; [now symmetry|lia].
  - intros (Hp & Hex & ->). split; [exact Hp|].
    pose proof (increment_all_has_node incs NodeTrie_init p) as Hh.
    rewrite Hex, orb_true_r in Hh.
    destruct (has_node_weight_at _ _ Hh) as (n & Hn & Hw).
    exists p, n. split; [reflexivity|]. split; [exact Hn|].
    rewrite Hw, increment_all_weight_at by exact Hp.
    rewrite weight_at_init. lia.
Qed.

(** ** Strings *)

Lemma lstrip_decomp c s : exists n, s = repeat c n ++ lstrip c s.
Proof.
  induction s as [|a s [n IH]]; simpl.
  - now exists O.
  - destruct (Ascii.eqb a c) eqn:E.
    + apply Ascii.eqb_eq in E. subst a. exists (S n). simpl. now f_equal.
    + now exists O.
Qed.

Lemma lstrip_head c s x : lstrip c s <> c :: x.
Proof.
  induction s as [|a s IH]; simpl; [discriminate|].
  destruct (Ascii.eqb a c) eqn:E; [exact IH|].
  intros [= -> _]. now rewrite Ascii.eqb_refl in E.
Qed.

Lemma lstrip_free c s : ~ In c s -> lstrip c s = s.
Proof.
  destruct s as [|a s]; simpl; [reflexivity|]. intros H.
  destruct (Ascii.eqb a c) eqn:E; [|reflexivity].
  apply Ascii.eqb_eq in E. subst. exfalso. apply H. now left.
Qed.

Lemma rev_repeat_same {A} (c : A) n : rev (repeat c n) = repeat c n.
Proof.
  induction n as [|n IH]; simpl; [reflexivity|].
  rewrite IH. symmetry. apply repeat_cons.
Qed.

Lemma rstrip_decomp c s : exists m, s = rstrip c s ++ repeat c m.
Proof.
  unfold rstrip. destruct (lstrip_decomp c (rev s)) as [m H].
  exists m. apply (f_equal (@rev ascii)) in H.
  rewrite rev_involutive, rev_app_distr, rev_repeat_same in H. exact H.
Qed.

Lemma rstrip_tail c s x : rstrip c s <> x ++ [c].
Proof.
  unfold rstrip. intros H. apply (f_equal (@rev ascii)) in H.
  rewrite rev_involutive, rev_app_distr in H. simpl in H.
  now apply lstrip_head in H.
Qed.

Lemma rstrip_free c s : ~ In c s -> rstrip c s = s.
Proof.
  intros H. unfold rstrip. rewrite lstrip_free.
  - apply rev_involutive.
  - intro Hin. apply H. now apply in_rev.
Qed.

(** [strip] removes the end markers at both ends, all of them, and nothing
    else. *)
Lemma strip_spec c s :
  (exists a b, s = repeat c a ++ strip c s ++ repeat c b)
  /\ (forall x, strip c s <> c :: x)
  /\ (forall x, strip c s <> x ++ [c]).
Proof.
  unfold strip. split; [|split].
  - destruct (lstrip_decomp c s) as [a Ha].
    destruct (rstrip_decomp c (lstrip c s)) as [b Hb].
    exists a, b. rewrite <- Hb. exact Ha.
  - intros x H. destruct (rstrip_decomp c (lstrip c s)) as [b Hb].
    rewrite H in Hb. simpl in Hb. now apply lstrip_head in Hb.
  - intros x. apply rstrip_tail.
Qed.

Lemma strip_free c s : ~ In c s -> strip c s = s.
Proof.
  intros H. unfold strip. rewrite lstrip_free by assumption.
  now apply rstrip_free.
Qed.

Lemma strip_terminated c s : ~ In c s -> strip c (s ++ [c]) = s.
Proof.
  intros H. unfold strip. destruct s as [|a s].
  - simpl. rewrite Ascii.eqb_refl. reflexivity.
  - assert (Ha : Ascii.eqb a c = false).
    { destruct (Ascii.eqb a c) eqn:E; [|reflexivity].
      apply Ascii.eqb_eq in E. subst. exfalso. apply H. now left. }
    simpl. rewrite Ha. unfold rstrip.
    change (a :: s ++ [c]) with ((a :: s) ++ [c]).
    rewrite rev_app_distr. simpl. rewrite Ascii.eqb_refl.
    rewrite lstrip_free.
    + change (rev s ++ [a]) with (rev (a :: s)). apply rev_involutive.
    + change (rev s ++ [a]) with (rev (a :: s)). intro Hin.
      apply H. now apply in_rev.
Qed.

(** ** Guesser *)

Lemma float_ge_not_lt a t : float_ge a t = true -> float_lt a t = false.
Proof.
  destruct a; simpl; try discriminate; [|reflexivity].
  unfold Qlt_bool. now intros ->.
Qed.

Section GuesserFacts.

Variable config : ModelDefaults.
Variable model : str -> list Q.

Lemma fst_then_ a b : snd a = Done -> fst (then_ a b) = fst a ++ fst b.
Proof. unfold then_. intros ->. reflexivity. Qed.

Lemma then_events (P : event -> Prop) a b :
  Forall P (fst a) -> Forall P (fst b) -> Forall P (fst (then_ a b)).
Proof.
  unfold then_. intros Ha Hb. destruct (snd a); simpl; auto.
  apply Forall_app; auto.
Qed.

Lemma for_each_events {A} (P : event -> Prop) (l : list A) body :
  (forall x, In x l -> Forall P (fst (body x))) ->
  Forall P (fst (for_each l body)).
Proof.
  induction l as [|x l IH]; intros H; simpl.
  - constructor.
  - apply then_events; [apply H; now left|].
    apply IH. intros y Hy. apply H. now right.
Qed.

Lemma then_fuel a b :
  snd a <> OutOfFuel -> snd b <> OutOfFuel -> snd (then_ a b) <> OutOfFuel.
Proof. unfold then_. destruct (snd a) eqn:E; simpl; auto; rewrite E; auto. Qed.

Lemma for_each_fuel {A} (l : list A) body :
  (forall x, In x l -> snd (body x) <> OutOfFuel) ->
  snd (for_each l body) <> OutOfFuel.
Proof.
  induction l as [|x l IH]; intros H; simpl.
  - discriminate.
  - apply then_fuel; [apply H; now left|].
    apply IH. intros y Hy. apply H. now right.
Qed.

Lemma recur_body_above self :
  (forall s p, Forall (above_threshold config) (fst (self s p))) ->
  forall s p, Forall (above_threshold config) (fst (recur_body config model self s p)).
Proof.
  intros Hself s p. unfold recur_body.
  destruct (float_lt p (lower_probability_threshold config)) eqn:Hlt.
  - constructor.
  - destruct (len s >? max_len config).
    + destruct (len (strip PASSWORD_END s) =? max_len config); simpl.
      * constructor; [exact Hlt | constructor].
      * constructor.
    + apply then_events; simpl.
      * constructor; [exact Hlt | constructor].
      * destruct (conditional_probs config model s) as [prediction|];
          [|constructor].
        apply for_each_events. intros c _.
        destruct (cond_prob_from_preds config c prediction) as [q|];
          [|constructor].
        destruct (Ascii.eqb c PASSWORD_END
                  && float_ge (float_mul q p)
                              (lower_probability_threshold config)) eqn:Hend.
        -- apply andb_true_iff in Hend. destruct Hend as [_ Hge]. simpl.
           constructor; [|constructor]. simpl. now apply float_ge_not_lt.
        -- destruct (negb (Ascii.eqb c PASSWORD_END)); [apply Hself|constructor].
Qed.

Lemma Guesser_recur_above fuel : forall s p,
  Forall (above_threshold config) (fst (Guesser_recur config model fuel s p)).
Proof.
  induction fuel as [|fuel IH]; intros s p; simpl.
  - constructor.
  - apply recur_body_above. exact IH.
Qed.

(** From a prefix without end marker a pair is emitted only after the
    comparison [chain_prob >= t]: the branch for a prefix longer than
    [max_len] emits nothing, because the stripped prefix is as long. *)
Lemma recur_body_at_least self :
  (forall s p, ~ In PASSWORD_END s ->
     Forall (emitted_at_least config) (fst (self s p))) ->
  forall s p, ~ In PASSWORD_END s ->
    Forall (emitted_at_least config) (fst (recur_body config model self s p)).
Proof.
  intros Hself s p Hs. unfold recur_body.
  destruct (float_lt p (lower_probability_threshold config)); [constructor|].
  destruct (len s >? max_len config) eqn:Hlen.
  - rewrite strip_free by exact Hs.
    destruct (len s =? max_len config) eqn:E; [|constructor].
    apply Z.eqb_eq in E. rewrite Z.gtb_ltb in Hlen. apply Z.ltb_lt in Hlen. lia.
  - apply then_events; simpl; [constructor; [exact I|constructor]|].
    destruct (conditional_probs config model s) as [prediction|];
      [|constructor].
    apply for_each_events. intros c _.
    destruct (cond_prob_from_preds config c prediction) as [q|];
      [|constructor].
    destruct (Ascii.eqb c PASSWORD_END) eqn:Ec; simpl.
    + destruct (float_ge _ _) eqn:Hge; simpl; [|constructor].
      constructor; [exact Hge|constructor].
    + apply Hself. intro Hin. apply in_app_or in Hin.
      destruct Hin as [Hin|[Hc|[]]]; [contradiction|].
      subst c. now rewrite Ascii.eqb_refl in Ec.
Qed.

Lemma Guesser_recur_at_least fuel : forall s p,
  ~ In PASSWORD_END s ->
  Forall (emitted_at_least config) (fst (Guesser_recur config model fuel s p)).
Proof.
  induction fuel as [|fuel IH]; intros s p Hs; simpl.
  - constructor.
  - apply recur_body_at_least; auto.
Qed.

Lemma len_app_one (s : str) c : len (s ++ [c]) = len s + 1.
Proof. unfold len. rewrite length_app. simpl. lia. Qed.

Lemma recur_body_fuel self fuel :
  (forall s p, (recur_fuel config s <= fuel)%nat -> snd (self s p) <> OutOfFuel) ->
  forall s p, (recur_fuel config s <= S fuel)%nat ->
    snd (recur_body config model self s p) <> OutOfFuel.
Proof.
  intros Hself s p Hfuel. unfold recur_body.
  destruct (float_lt p (lower_probability_threshold config)); [discriminate|].
  destruct (len s >? max_len config) eqn:Hlen.
  - destruct (len (strip PASSWORD_END s) =? max_len config); discriminate.
  - apply then_fuel; [discriminate|].
    destruct (conditional_probs config model s) as [prediction|];
      [|discriminate].
    apply for_each_fuel. intros c _.
    destruct (cond_prob_from_preds config c prediction) as [q|];
      [|discriminate].
    destruct (Ascii.eqb c PASSWORD_END && _); [discriminate|].
    destruct (negb (Ascii.eqb c PASSWORD_END)); [|discriminate].
    apply Hself. unfold recur_fuel in *. rewrite len_app_one.
    rewrite Z.gtb_ltb in Hlen. apply Z.ltb_ge in Hlen. lia.
Qed.

Lemma Guesser_recur_fuel fuel : forall s p,
  (recur_fuel config s <= fuel)%nat ->
  snd (Guesser_recur config model fuel s p) <> OutOfFuel.
Proof.
  induction fuel as [|fuel IH]; intros s p H.
  - unfold recur_fuel in H. lia.
  - simpl. apply (recur_body_fuel _ fuel); auto.
Qed.

(** The two readings of [relevel_prediction] agree where the sum is not
    zero: the vector of numbers is the vector of floating-point values. *)
Lemma relevel_floats_numbers preds astring l :
  relevel_prediction config preds astring = Some l ->
  relevel_floats config preds astring = Some (map Num l).
Proof.
  unfold relevel_prediction, relevel_floats, relevel_forced.
  destruct (if negb (pwd_is_valid config astring)
            then match get_char_index (ctable config) PASSWORD_END with
                 | Some i => list_set i (0 # 1) preds
                 | None => None
                 end
            else if len astring =? max_len config
                 then force_end config (chars (ctable config)) preds
                 else Some preds) as [forced|]; [|discriminate].
  destruct (Qeq_bool (Qsum forced) (0 # 1)) eqn:E; [discriminate|].
  intros [= <-]. rewrite map_map. f_equal. apply map_ext. intros v.
  unfold float_div. now rewrite E.
Qed.

(** C2 (amended): a search from any prefix and probability, with any
    oracle, runs to its end (it returns or raises; the fuel of the model
    is enough).  On the way no pair is emitted and no prefix is expanded
    (the oracle consulted) with a probability that the comparison
    [prob < t] finds below the threshold: every such probability is a
    number that is at least the threshold, or plus infinity, or nan, which
    a prediction that relevels to a sum of zero leaves behind.  From a
    prefix without end marker every pair is emitted with a probability for
    which [prob >= t] holds, so not with nan. *)
Theorem recur_threshold_sound (astring : str) (prob : float) :
  snd (Guesser_recur config model (recur_fuel config astring) astring prob)
    <> OutOfFuel
  /\ Forall (above_threshold config)
       (fst (Guesser_recur config model (recur_fuel config astring)
               astring prob))
  /\ (~ In PASSWORD_END astring ->
      Forall (emitted_at_least config)
        (fst (Guesser_recur config model (recur_fuel config astring)
                astring prob))).
Proof.
  split; [|split].
  - apply Guesser_recur_fuel. lia.
  - apply Guesser_recur_above.
  - apply Guesser_recur_at_least.
Qed.

End GuesserFacts.

Lemma recur_threshold_sound_witness :
  ~ In PASSWORD_END (@nil ascii)
  /\ Forall (emitted_at_least tiny_config)
       (fst (Guesser_recur tiny_config uniform_model
               (recur_fuel tiny_config []) [] (Num (1 # 1)))).
Proof.
  assert (H : ~ In PASSWORD_END (@nil ascii)) by (intros []).
  split; [exact H|].
  exact (proj2 (proj2 (recur_threshold_sound tiny_config uniform_model []
                         (Num (1 # 1)))) H).
Defined.

(** C2, as stated, fails.  With the oracle that gives the end marker the
    whole probability, the prediction for the empty prefix, which is too
    short to be a password, relevels to the zero vector: its quotients are
    nan, the cumulative probability of the prefix [a] is nan, [nan < t] is
    false, and the search expands [a] (and five more prefixes) although
    [nan >= t] is false too.  The search returns and emits nothing.  And
    started at a prefix that is longer than [max_len] with its end marker
    and has a probability of nan, the search emits the pair with nan. *)
Lemma recur_threshold_counterexample :
  Guesser_recur tiny_config end_only_model (recur_fuel tiny_config []) []
    (Num (1 # 1))
  = ([Predict [] (Num (1 # 1));
      Predict (L "a") NaN; Predict (L "aa") NaN; Predict (L "ab") NaN;
      Predict (L "b") NaN; Predict (L "ba") NaN; Predict (L "bb") NaN],
     Done)
  /\ Guesser_recur tiny_config end_only_model
       (recur_fuel tiny_config (PASSWORD_END :: L "ab"))
       (PASSWORD_END :: L "ab") NaN
     = ([Emit (PASSWORD_END :: L "ab") NaN], Done)
  /\ float_ge NaN (lower_probability_threshold tiny_config) = false
  /\ float_lt NaN (lower_probability_threshold tiny_config) = false.
Proof.
  split; [vm_compute; reflexivity|].
  split; [vm_compute; reflexivity|split; reflexivity].
Qed.

(** ** CharacterTable and relevel_prediction *)











Lemma Qsum_app l1 l2 : (Qsum (l1 ++ l2) == Qsum l1 + Qsum l2)%Q.
Proof.
  induction l1 as [|a l1 IH]; simpl.
  - now rewrite Qplus_0_l.
  - rewrite IH. now rewrite Qplus_assoc.
Qed.










(** ** ModelDefaults.validate *)

(** C8 (amended): validation, which runs when the configuration is loaded,
    rejects every configuration whose fork length is not below the minimum
    password length.  The probability threshold is not looked at. *)
Theorem validate_rejects_fork_length (c : ModelDefaults) :
  fork_length c >= min_len c ->
  validate c = false /\ fromFile (Some c) = None.
Proof.
  intros H. assert (Hv : validate c = false).
  { unfold validate. replace (fork_length c <? min_len c) with false.
    - now rewrite andb_false_r.
    - symmetry. apply Z.ltb_ge. lia. }
  split; [exact Hv|]. unfold fromFile. now rewrite Hv.
Qed.

Lemma validate_rejects_fork_length_witness :
  fork_length bad_fork_config >= min_len bad_fork_config
  /\ validate bad_fork_config = false
  /\ fromFile (Some bad_fork_config) = None.
Proof.
  split.
  - unfold bad_fork_config. simpl. lia.
  - apply (validate_rejects_fork_length bad_fork_config).
    unfold bad_fork_config. simpl. lia.
Defined.

(** C8, as stated, fails: a configuration with a threshold of zero passes
    the validation and is loaded. *)
Lemma validate_accepts_zero_threshold :
  (lower_probability_threshold zero_threshold_config <= 0)%Q
  /\ validate zero_threshold_config = true
  /\ fromFile (Some zero_threshold_config) = Some zero_threshold_config.
Proof.
  split; [discriminate|]. split; reflexivity.
Qed.

(** ** GuessSerializer *)

Section SerializeFacts.

Variable config : ModelDefaults.
Variable model : str -> list Q.

Lemma recur_body_shape self :
  (forall s p, ~ In PASSWORD_END s -> Forall well_terminated (fst (self s p))) ->
  forall s p, ~ In PASSWORD_END s ->
    Forall well_terminated (fst (recur_body config model self s p)).
Proof.
  intros Hself s p Hs. unfold recur_body.
  destruct (float_lt p (lower_probability_threshold config)); [constructor|].
  destruct (len s >? max_len config).
  - destruct (len (strip PASSWORD_END s) =? max_len config); simpl.
    + constructor; [now left | constructor].
    + constructor.
  - apply then_events; simpl; [constructor; [exact I|constructor]|].
    destruct (conditional_probs config model s) as [prediction|];
      [|constructor].
    apply for_each_events. intros c _.
    destruct (cond_prob_from_preds config c prediction) as [q|];
      [|constructor].
    destruct (Ascii.eqb c PASSWORD_END) eqn:Ec; simpl.
    + apply Ascii.eqb_eq in Ec. subst c.
      destruct (float_ge _ _); simpl; [|constructor].
      constructor; [|constructor]. right. now exists s.
    + apply Hself. intro Hin. apply in_app_or in Hin.
      destruct Hin as [Hin|[Hc|[]]]; [contradiction|].
      subst c. now rewrite Ascii.eqb_refl in Ec.
Qed.

Lemma Guesser_recur_shape fuel : forall s p,
  ~ In PASSWORD_END s ->
  Forall well_terminated (fst (Guesser_recur config model fuel s p)).
Proof.
  induction fuel as [|fuel IH]; intros s p Hs; simpl.
  - constructor.
  - apply recur_body_shape; auto.
Qed.

Lemma ParallelGuesser_recur_shape fuel : forall s p,
  ~ In PASSWORD_END s ->
  Forall well_terminated (fst (ParallelGuesser_recur config model fuel s p)).
Proof.
  induction fuel as [|fuel IH]; intros s p Hs; simpl.
  - constructor.
  - destruct (len s =? fork_length config).
    + simpl. constructor; [exact Hs|constructor].
    + apply recur_body_shape; auto.
Qed.

(** C10: for every pair that a search from a prefix without end marker
    emits, [serialize] writes the password without the end markers at its
    two ends, a tab, the probability and a newline; given that the text of a
    probability has no newline, the only newline of the line is its last
    character. *)
Theorem serialize_line_shape (str_of_prob : float -> str) (fuel : nat)
    (start : str) (start_prob : float) (password : str) (prob : float) :
  (forall q, ~ In PASSWORD_END (str_of_prob q)) ->
  ~ In PASSWORD_END start ->
  In (Emit password prob)
     (fst (Guesser_recur config model fuel start start_prob)) ->
  serialize str_of_prob password prob
  = strip PASSWORD_END password ++ [TAB] ++ str_of_prob prob ++ [PASSWORD_END]
  /\ (exists a b, password = repeat PASSWORD_END a
                             ++ strip PASSWORD_END password
                             ++ repeat PASSWORD_END b)
  /\ (forall x, strip PASSWORD_END password <> PASSWORD_END :: x)
  /\ (forall x, strip PASSWORD_END password <> x ++ [PASSWORD_END])
  /\ ~ In PASSWORD_END
         (strip PASSWORD_END password ++ [TAB] ++ str_of_prob prob).
Proof.
  intros Hfmt Hstart Hin.
  split; [reflexivity|].
  destruct (strip_spec PASSWORD_END password) as (H1 & H2 & H3).
  repeat (split; [assumption|]).
  pose proof (Guesser_recur_shape fuel start start_prob Hstart) as Hall.
  rewrite Forall_forall in Hall. specialize (Hall _ Hin). simpl in Hall.
  assert (Hfree : ~ In PASSWORD_END (strip PASSWORD_END password)).
  { destruct Hall as [Hf|(s & -> & Hf)].
    - now rewrite strip_free.
    - now rewrite strip_terminated. }
  intro H. apply in_app_or in H. destruct H as [H|H]; [contradiction|].
  apply in_app_or in H. destruct H as [[H|[]]|H].
  - discriminate.
  - now apply Hfmt in H.
Qed.

End SerializeFacts.

Lemma bits_no_newline p : ~ In PASSWORD_END (bits p).
Proof.
  induction p as [p IH|p IH|]; simpl; intro H.
  - apply in_app_or in H. destruct H as [H|[H|[]]]; [auto|discriminate].
  - apply in_app_or in H. destruct H as [H|[H|[]]]; [auto|discriminate].
  - destruct H as [H|[]]. discriminate.
Qed.

Lemma prob_text_no_newline q : ~ In PASSWORD_END (prob_text q).
Proof.
  unfold prob_text. intro H. apply in_app_or in H. destruct H as [H|H].
  - destruct (Qnum q); simpl in H.
    + destruct H as [H|[]]. discriminate.
    + now apply bits_no_newline in H.
    + destruct H as [H|H]; [discriminate|]. now apply bits_no_newline in H.
  - apply in_app_or in H. destruct H as [[H|[]]|H]; [discriminate|].
    now apply bits_no_newline in H.
Qed.

Lemma float_text_no_newline p : ~ In PASSWORD_END (float_text p).
Proof.
  destruct p; simpl; [apply prob_text_no_newline| | |];
    intros H; repeat (destruct H as [H|H]; [discriminate H|]); exact H.
Qed.

Lemma serialize_line_shape_witness :
  (forall p, ~ In PASSWORD_END (float_text p))
  /\ ~ In PASSWORD_END (@nil ascii)
  /\ In (Emit (L "aa" ++ [PASSWORD_END]) (Num (81 # 324)))
        (fst (Guesser_recur tiny_config uniform_model 5 [] (Num (1 # 1))))
  /\ serialize float_text (L "aa" ++ [PASSWORD_END]) (Num (81 # 324))
     = L "aa" ++ [TAB] ++ L "1010001/101000100" ++ [PASSWORD_END]
  /\ ~ In PASSWORD_END
         (strip PASSWORD_END (L "aa" ++ [PASSWORD_END]) ++ [TAB]
          ++ float_text (Num (81 # 324))).
Proof.
  assert (H2 : ~ In PASSWORD_END (@nil ascii)) by (intros []).
  assert (H3 : In (Emit (L "aa" ++ [PASSWORD_END]) (Num (81 # 324)))
                  (fst (Guesser_recur tiny_config uniform_model 5 []
                          (Num (1 # 1))))).
  { vm_compute. right. right. right. left. reflexivity. }
  split; [exact float_text_no_newline|].
  split; [exact H2|]. split; [exact H3|].
  split; [reflexivity|].
  exact (proj2 (proj2 (proj2 (proj2
           (serialize_line_shape tiny_config uniform_model float_text 5 []
              (Num (1 # 1)) (L "aa" ++ [PASSWORD_END]) (Num (81 # 324))
              float_text_no_newline H2 H3))))).
Defined.

(** ** ParallelGuesser *)

Lemma concat_lines_from text : forall cur,
  concat (lines_from cur text) = cur ++ text.
Proof.
  induction text as [|c text IH]; intros cur; simpl.
  - destruct cur; simpl; [reflexivity|]. now rewrite !app_nil_r.
  - destruct (Ascii.eqb c PASSWORD_END); simpl.
    + rewrite IH. simpl. now rewrite <- app_assoc.
    + rewrite IH. now rewrite <- app_assoc.
Qed.

Lemma concat_lines text : concat (lines text) = text.
Proof. unfold lines. now rewrite concat_lines_from. Qed.

(** The newest binding of a name is found whatever lies below it, when all
    the bindings of that name above agree. *)
Lemma file_content_app (written rest : files) name text :
  (exists e, In e written /\ fst e = name) ->
  (forall e, In e written -> fst e = name -> snd e = text) ->
  file_content (written ++ rest) name = Some text.
Proof.
  unfold file_content. induction written as [|[n t] written IH];
    intros [e [Hin He]] Hall; simpl.
  - contradiction.
  - destruct (Nat.eqb n name) eqn:E; simpl.
    + apply Nat.eqb_eq in E. f_equal. apply (Hall (n, t)); [now left|exact E].
    + apply IH.
      * destruct Hin as [<-|Hin].
        -- simpl in He. subst. now rewrite Nat.eqb_refl in E.
        -- now exists e.
      * intros e' He' Hn. apply Hall; [now right|exact Hn].
Qed.

Lemma file_content_skip (written rest : files) name :
  (forall e, In e written -> fst e <> name) ->
  file_content (written ++ rest) name = file_content rest name.
Proof.
  unfold file_content. induction written as [|[n t] written IH];
    intros Hall; simpl; [reflexivity|].
  destruct (Nat.eqb n name) eqn:E.
  - apply Nat.eqb_eq in E. exfalso. apply (Hall (n, t)); [now left|exact E].
  - apply IH. intros e He. apply Hall. now right.
Qed.

Section ParallelFacts.

#[local] Arguments recur_fuel : simpl never.

Variable config : ModelDefaults.
Variable model : str -> list Q.
Variable str_of_prob : float -> str.
Variable on_disk : str -> str.

Lemma arg_list_from_spec : forall fps self,
  let r := arg_list_from fps self in
  fst r = combine fps (seq (next_name self) (length fps))
  /\ intermediate_files (snd r)
     = intermediate_files self ++ seq (next_name self) (length fps)
  /\ (exists created,
        fs (snd r) = created ++ fs self
        /\ forall e, In e created -> (next_name self <= fst e)%nat)
  /\ tempOstream (snd r) = tempOstream self
  /\ real_output (snd r) = real_output self.
Proof.
  induction fps as [|node fps IH]; intros self; simpl.
  - rewrite app_nil_r. repeat split. exists []. split; [reflexivity|].
    intros e [].
  - match goal with
    | |- context [arg_list_from fps ?s] => specialize (IH s); set (s' := s) in *
    end.
    destruct (arg_list_from fps s') as [args self''].
    simpl in IH |- *.
    destruct IH as (Hargs & Hint & (created & Hfs & Hcr) & Htmp & Hout).
    repeat split.
    + now rewrite Hargs.
    + rewrite Hint. now rewrite <- app_assoc.
    + exists (created ++ [(next_name self, [])]). split.
      * rewrite Hfs. now rewrite <- app_assoc.
      * intros e He. apply in_app_or in He. destruct He as [He|[<-|[]]].
        -- apply Hcr in He. lia.
        -- simpl. lia.
    + exact Htmp.
    + exact Hout.
Qed.

Lemma run_workers_spec (args : list ((str * float) * nat)) :
  forall schedule fs0,
  (forall i, In i schedule -> exists node ofile,
      nth_error args i = Some (node, ofile)
      /\ snd (Guesser_recur config model (recur_fuel config (fst node))
                (fst node) (snd node)) = Done) ->
  exists written ns,
    run_workers config model str_of_prob args schedule fs0
    = Some (written ++ fs0, ns)
    /\ (forall e, In e written <->
          exists i node, In i schedule
            /\ nth_error args i = Some (node, fst e)
            /\ snd e = worker_output config model str_of_prob node).
Proof.
  induction schedule as [|i schedule IH]; intros fs0 Hok;
    cbn [run_workers].
  - exists [], []. split; [reflexivity|]. intros e. split; [intros []|].
    intros (i & node & [] & _).
  - destruct (Hok i (or_introl eq_refl)) as (node & ofile & Hnth & Hdone).
    rewrite Hnth. unfold Guesser_do_guessing.
    destruct (Guesser_recur config model (recur_fuel config (fst node))
                (fst node) (snd node)) as [tr o] eqn:Hrun.
    simpl in Hdone. subst o.
    destruct (IH ((ofile, output_of str_of_prob tr) :: fs0)) as
      (written & ns & Hrw & Hchar).
    { intros j Hj. apply Hok. now right. }
    rewrite Hrw.
    exists (written ++ [(ofile, output_of str_of_prob tr)]),
      (generated_of tr :: ns).
    split; [now rewrite <- app_assoc|].
    intros e. split.
    + intros He. apply in_app_or in He. destruct He as [He|[<-|[]]].
      * apply Hchar in He. destruct He as (j & nd & Hj & Hn & Hs).
        exists j, nd. split; [now right|]. now split.
      * exists i, node. split; [now left|]. split; [exact Hnth|].
        cbn [fst snd]. unfold worker_output. now rewrite Hrun.
    + intros (j & nd & [<-|Hj] & Hn & Hs).
      * apply in_or_app. right. left.
        rewrite Hnth in Hn. injection Hn as <- Hof.
        destruct e as [n t]. cbn [fst snd] in *. subst. f_equal.
        unfold worker_output. now rewrite Hrun.
      * apply in_or_app. left. apply Hchar. now exists j, nd.
Qed.

Lemma copy_streams_spec (fs0 : files) : forall names texts out,
  Forall2 (fun n t => file_content fs0 n = Some t) names texts ->
  copy_streams fs0 names out
  = Some (out ++ concat (map universal_newlines texts)).
Proof.
  induction names as [|n names IH]; intros texts out H; inversion H; subst;
    simpl.
  - now rewrite app_nil_r.
  - match goal with Hc : file_content _ _ = Some _ |- _ => rewrite Hc end.
    rewrite concat_lines, IH with (texts := l') by assumption.
    now rewrite <- app_assoc.
Qed.

Lemma is_empty_combine_seq {A} (l : list A) start :
  is_empty (combine l (seq start (length l))) = is_empty l.
Proof. now destruct l. Qed.

Lemma nth_error_combine_seq {A} (l : list A) start i x :
  nth_error l i = Some x ->
  nth_error (combine l (seq start (length l))) i = Some (x, (start + i)%nat).
Proof.
  revert start i. induction l as [|a l IH]; intros start i H.
  - destruct i; discriminate.
  - destruct i as [|i]; simpl in *.
    + injection H as ->. now rewrite Nat.add_0_r.
    + rewrite (IH (S start) i H). f_equal. f_equal. lia.
Qed.

Lemma nth_error_combine_seq_inv {A} (l : list A) start i x n :
  nth_error (combine l (seq start (length l))) i = Some (x, n) ->
  nth_error l i = Some x /\ n = (start + i)%nat.
Proof.
  revert start i. induction l as [|a l IH]; intros start i H.
  - destruct i; discriminate.
  - destruct i as [|i]; simpl in *.
    + injection H as -> <-. split; [reflexivity|lia].
    + apply IH in H. destruct H as [H ->]. split; [exact H|lia].
Qed.

(** C9 (code defect): when the root search and every worker return,
    whatever the order in which the workers finish.  Without a fork point
    [guess] raises, because the pool is asked for zero processes.
    Otherwise the text that [guess] leaves on the output is what the
    stream [collect_answer] opens delivers of the part of the root's
    output that has reached its file, followed by what is delivered of the
    output of the worker of every fork point, in the order in which the
    fork points were found.  The root's stream is never flushed: the lines
    of the root that are still in its buffer are lost. *)
Theorem parallel_guess_output (schedule : list nat) (root : list event) :
  ParallelGuesser_recur config model (recur_fuel config []) [] (Num (1 # 1))
  = (root, Done) ->
  (forall node, In node (fork_points_of root) ->
     snd (Guesser_recur config model (recur_fuel config (fst node))
            (fst node) (snd node)) = Done) ->
  Permutation schedule (seq 0 (length (fork_points_of root))) ->
  (fork_points_of root = [] ->
   ParallelGuesser_guess config model str_of_prob on_disk schedule = None)
  /\ (fork_points_of root <> [] ->
      exists pg,
        ParallelGuesser_guess config model str_of_prob on_disk schedule
        = Some pg
        /\ real_output pg
           = universal_newlines (on_disk (output_of str_of_prob root))
             ++ flat_map (fun node =>
                            universal_newlines
                              (worker_output config model str_of_prob node))
                         (fork_points_of root)).
Proof.
  intros Hroot Hworkers Hperm. split.
  { intros Hnil. unfold ParallelGuesser_guess. rewrite Hroot.
    unfold do_forking, arg_list. cbn [fork_points]. rewrite Hnil.
    reflexivity. }
  intros Hne.
  unfold ParallelGuesser_guess. rewrite Hroot.
  unfold do_forking, arg_list. simpl.
  set (fps := fork_points_of root) in *.
  match goal with
  | |- context [arg_list_from fps ?s] =>
      pose proof (arg_list_from_spec fps s) as Hal; set (self0 := s) in *
  end.
  destruct (arg_list_from fps self0) as [args self1].
  simpl in Hal.
  destruct Hal as (Hargs & Hint & (created & Hfs & Hcr) & Htmp & Hout).
  replace (is_empty args) with false.
  2:{ rewrite Hargs, is_empty_combine_seq. destruct fps; [congruence|reflexivity]. }
  destruct (run_workers_spec args schedule (fs self1)) as
    (written & ns & Hrw & Hchar).
  { intros i Hi. eapply Permutation_in in Hi; [|exact Hperm].
    apply in_seq in Hi.
    destruct (nth_error fps i) as [node|] eqn:Hn.
    - exists node, (1 + i)%nat. split.
      + rewrite Hargs. now apply nth_error_combine_seq.
      + apply Hworkers. eapply nth_error_In; eauto.
    - apply nth_error_None in Hn. lia. }
  rewrite Hrw. unfold collect_answer.
  cbn [tempOstream intermediate_files real_output fs].
  rewrite Htmp, Hint, Hout.
  rewrite (copy_streams_spec _ _
             (on_disk (output_of str_of_prob root)
              :: map (worker_output config model str_of_prob) fps)).
  - eexists. split; [reflexivity|]. simpl.
    f_equal. now rewrite map_map, flat_map_concat_map.
  - constructor.
    + (* the file of the root search *)
      rewrite file_content_skip.
      * rewrite Hfs, file_content_skip; [reflexivity|].
        intros e He. apply Hcr in He. simpl in He. lia.
      * intros e He. apply Hchar in He.
        destruct He as (i & node & _ & Hn & _).
        rewrite Hargs in Hn. apply nth_error_combine_seq_inv in Hn.
        destruct Hn as [_ ->]. lia.
    + (* the files of the workers *)
      assert (Hgen : forall l start,
        (forall j node, nth_error l j = Some node ->
           file_content (written ++ fs self1) (start + j)%nat
           = Some (worker_output config model str_of_prob node)) ->
        Forall2 (fun n t => file_content (written ++ fs self1) n = Some t)
                (seq start (length l)) (map (worker_output config model str_of_prob) l)).
      { induction l as [|a l IHl]; intros start Hl; simpl; constructor.
        - rewrite <- (Nat.add_0_r start). now apply Hl.
        - apply IHl. intros j node Hj.
          replace (S start + j)%nat with (start + S j)%nat by lia.
          now apply Hl. }
      apply Hgen. intros j node Hj.
      apply file_content_app.
      * exists ((1 + j)%nat, worker_output config model str_of_prob node). split; [|reflexivity].
        apply Hchar. exists j, node. split; [|split; [|reflexivity]].
        -- eapply Permutation_in; [apply Permutation_sym, Hperm|].
           apply in_seq. split; [lia|]. simpl.
           apply nth_error_Some. rewrite Hj. discriminate.
        -- rewrite Hargs. simpl. now apply nth_error_combine_seq.
      * intros e He Hname. apply Hchar in He.
        destruct He as (i & nd & _ & Hn & Hs).
        rewrite Hargs in Hn. apply nth_error_combine_seq_inv in Hn.
        destruct Hn as [Hn Hi]. rewrite Hi in Hname.
        assert (i = j) by lia. subst i. rewrite Hj in Hn.
        injection Hn as <-. exact Hs.
Qed.

End ParallelFacts.

(** The failing input: without releveling, the root search with a fork
    length of 1 emits the empty password before it reaches the two fork
    points; the line is written to the root's stream, stays in its buffer,
    and the output holds the lines of the two workers only. *)
Lemma parallel_guess_output_witness :
  let root := fst (ParallelGuesser_recur plain_config uniform_model
                     (recur_fuel plain_config []) [] (Num (1 # 1))) in
  ParallelGuesser_recur plain_config uniform_model (recur_fuel plain_config [])
    [] (Num (1 # 1)) = (root, Done)
  /\ (forall node, In node (fork_points_of root) ->
        snd (Guesser_recur plain_config uniform_model
               (recur_fuel plain_config (fst node)) (fst node) (snd node))
        = Done)
  /\ Permutation [1; 0]%nat (seq 0 (length (fork_points_of root)))
  /\ fork_points_of root <> []
  /\ output_of float_text root = [TAB] ++ L "1/11" ++ [PASSWORD_END]
  /\ exists pg,
       ParallelGuesser_guess plain_config uniform_model float_text
         all_buffered [1; 0]%nat = Some pg
       /\ real_output pg
          = universal_newlines (all_buffered (output_of float_text root))
            ++ flat_map (fun node =>
                           universal_newlines
                             (worker_output plain_config uniform_model
                                float_text node))
                        (fork_points_of root).
Proof.
  intros root.
  assert (H1 : ParallelGuesser_recur plain_config uniform_model
                 (recur_fuel plain_config []) [] (Num (1 # 1)) = (root, Done))
    by (vm_compute; reflexivity).
  assert (H2 : forall node, In node (fork_points_of root) ->
            snd (Guesser_recur plain_config uniform_model
                   (recur_fuel plain_config (fst node)) (fst node) (snd node))
            = Done).
  { intros node H. vm_compute in H.
    destruct H as [<-|[<-|[]]]; vm_compute; reflexivity. }
  assert (H3 : Permutation [1; 0]%nat (seq 0 (length (fork_points_of root))))
    by (vm_compute; apply perm_swap).
  assert (H4 : fork_points_of root <> []) by (vm_compute; discriminate).
  assert (H5 : output_of float_text root = [TAB] ++ L "1/11" ++ [PASSWORD_END])
    by (vm_compute; reflexivity).
  repeat (split; [assumption|]).
  exact (proj2 (parallel_guess_output plain_config uniform_model float_text
                  all_buffered [1; 0]%nat root H1 H2 H3) H4).
Defined.

(** ** The binary codec: reading what was written *)

Lemma skipn_app_length {A} (pre x : list A) : skipn (length pre) (pre ++ x) = x.
Proof. induction pre; simpl; auto. Qed.

Lemma firstn_app_length {A} (x y : list A) : firstn (length x) (x ++ y) = x.
Proof. induction x; simpl; [destruct y|]; congruence. Qed.

Lemma firstn_app_exact {A} n (x y : list A) :
  length x = n -> firstn n (x ++ y) = x.
Proof. intros <-. apply firstn_app_length. Qed.

Lemma skipn_app_exact {A} n (x y : list A) :
  length x = n -> skipn n (x ++ y) = y.
Proof. intros <-. apply skipn_app_length. Qed.

Lemma firstn_exact {A} n (x : list A) : length x = n -> firstn n x = x.
Proof. intros <-. apply firstn_all. Qed.

Lemma read_at (n : nat) (pre x : list byte) :
  read n (pre ++ x) (length pre) = Some (firstn n x, (length pre + length (firstn n x))%nat).
Proof. unfold read. now rewrite skipn_app_length. Qed.

Lemma frames_read (n : nat) (bs : list byte) :
  length bs = n -> frames (read n) bs (Some bs).
Proof.
  intros <- pre post. rewrite read_at, firstn_app_length. reflexivity.
Qed.

Lemma frames_ret {A} (a : A) : frames (ret a) [] (Some a).
Proof. intros pre post. unfold ret. simpl. now rewrite Nat.add_0_r. Qed.

Lemma frames_raise {A} : frames (@raise A) [] None.
Proof. intros pre post. reflexivity. Qed.

Lemma frames_lift {A} (o : option A) : frames (lift o) [] o.
Proof. destruct o; [apply frames_ret | apply frames_raise]. Qed.

Lemma frames_bind {A B} (m : Reader A) (k : A -> Reader B) b1 b2 a r :
  frames m b1 (Some a) -> frames (k a) b2 r ->
  frames (bind m k) (b1 ++ b2) r.
Proof.
  intros Hm Hk pre post. unfold bind.
  rewrite <- (app_assoc b1 b2 post), (Hm pre (b2 ++ post)). simpl.
  specialize (Hk (pre ++ b1) post).
  rewrite <- app_assoc, length_app in Hk. rewrite Hk.
  destruct r; simpl; [|reflexivity]. rewrite length_app. do 2 f_equal. lia.
Qed.

Lemma frames_bind_raise {A B} (m : Reader A) (k : A -> Reader B) b1 b2 :
  frames m b1 None -> frames (bind m k) (b1 ++ b2) None.
Proof.
  intros Hm pre post. unfold bind.
  rewrite <- (app_assoc b1 b2 post), (Hm pre (b2 ++ post)). reflexivity.
Qed.

Lemma frames_ext {A} (m : Reader A) b b' r :
  b = b' -> frames m b r -> frames m b' r.
Proof. now intros ->. Qed.

(** *** [struct] *)

Lemma in_range_spec bits n : in_range bits n = true <-> 0 <= n < 2 ^ bits.
Proof. unfold in_range. rewrite andb_true_iff, Z.leb_le, Z.ltb_lt. tauto. Qed.

Lemma pack_Q_spec n bs :
  pack_Q n = Some bs -> bs = le_split 8 n /\ 0 <= n < 2 ^ 64.
Proof.
  unfold pack_Q. destruct (in_range 64 n) eqn:E; [|discriminate].
  intros [= <-]. split; [reflexivity|]. now apply in_range_spec.
Qed.

Lemma pack_Q_ok n : 0 <= n < 2 ^ 64 -> pack_Q n = Some (le_split 8 n).
Proof.
  intros H. unfold pack_Q. apply in_range_spec in H. now rewrite H.
Qed.

Lemma le_combine_split_8 n : 0 <= n < 2 ^ 64 -> le_combine (le_split 8 n) = n.
Proof.
  intros H. rewrite le_combine_split. apply Z.mod_small.
  change (Z.of_nat 8 * 8) with 64. exact H.
Qed.

Lemma pack_QQ_spec a b bs :
  pack_QQ a b = Some bs ->
  bs = le_split 8 a ++ le_split 8 b /\ 0 <= a < 2 ^ 64 /\ 0 <= b < 2 ^ 64.
Proof.
  unfold pack_QQ. destruct (pack_Q a) as [x|] eqn:Ea; [|discriminate].
  destruct (pack_Q b) as [y|] eqn:Eb; [|discriminate].
  apply pack_Q_spec in Ea, Eb. destruct Ea as [-> Ha], Eb as [-> Hb].
  intros [= <-]. auto.
Qed.

Lemma pack_QQ_ok a b :
  0 <= a < 2 ^ 64 -> 0 <= b < 2 ^ 64 ->
  pack_QQ a b = Some (le_split 8 a ++ le_split 8 b).
Proof. intros Ha Hb. unfold pack_QQ. now rewrite !pack_Q_ok. Qed.

Lemma unpack_QQ_split a b :
  0 <= a < 2 ^ 64 -> 0 <= b < 2 ^ 64 ->
  unpack_QQ (le_split 8 a ++ le_split 8 b) = Some (a, b).
Proof.
  intros Ha Hb. unfold unpack_QQ.
  rewrite length_app, !length_le_split. simpl Nat.eqb. cbv iota.
  rewrite firstn_app_exact, skipn_app_exact by apply length_le_split.
  now rewrite !le_combine_split_8.
Qed.

Lemma unpack_from_Q_split n :
  0 <= n < 2 ^ 64 -> unpack_from_Q (le_split 8 n) = Some n.
Proof.
  intros H. unfold unpack_from_Q. rewrite length_le_split. simpl Nat.leb.
  cbv iota. rewrite firstn_exact by apply length_le_split.
  now rewrite le_combine_split_8.
Qed.

Lemma byte_unsigned_of_Z n : 0 <= n < 2 ^ 8 -> byte.unsigned (byte.of_Z n) = n.
Proof.
  intros H. rewrite byte.unsigned_of_Z. unfold byte.wrap.
  now apply Z.mod_small.
Qed.

Section CodecFacts.

Context {encoding : Encoding}.
Variable serial_type : serializer_type.

Lemma write_string_spec s bs :
  write_string s = Some bs ->
  exists sb, encode s = Some sb /\ 0 <= len sb < 2 ^ 8
             /\ bs = byte.of_Z (len sb) :: sb.
Proof.
  unfold write_string. destruct (encode s) as [sb|]; [|discriminate].
  unfold pack_B. destruct (in_range 8 (len sb)) eqn:E; [|discriminate].
  intros [= <-]. exists sb. apply in_range_spec in E. auto.
Qed.

Lemma read_string_frames s bs :
  write_string s = Some bs ->
  frames read_string bs (option_map Some (read_back_string s)).
Proof.
  intros H. destruct (write_string_spec _ _ H) as (sb & He & Hl & ->).
  unfold read_back_string. rewrite He. unfold read_string.
  change (byte.of_Z (len sb) :: sb) with ([byte.of_Z (len sb)] ++ sb).
  eapply frames_bind; [now apply frames_read|]. cbn [is_empty].
  eapply (frames_ext _ ([] ++ sb)); [reflexivity|].
  eapply frames_bind.
  { cbn [unpack_B]. rewrite byte_unsigned_of_Z by exact Hl. apply frames_ret. }
  eapply (frames_ext _ (sb ++ [])); [apply app_nil_r|].
  eapply frames_bind.
  { apply frames_read. unfold len. now rewrite Nat2Z.id. }
  destruct (decode sb) as [s'|].
  - eapply (frames_ext _ ([] ++ [])); [reflexivity|].
    eapply frames_bind; [apply frames_ret|apply frames_ret].
  - eapply (frames_ext _ ([] ++ [])); [reflexivity|].
    apply frames_bind_raise, frames_raise.
Qed.

Lemma unpack_from_1sQ_split b0 w :
  0 <= w < 2 ^ 64 -> unpack_from_1sQ (b0 :: le_split 8 w) = Some ([b0], w).
Proof.
  intros H. unfold unpack_from_1sQ. cbn [length]. rewrite length_le_split.
  simpl Nat.leb. cbv iota.
  change (skipn 1 (b0 :: le_split 8 w)) with (le_split 8 w).
  change (firstn 1 (b0 :: le_split 8 w)) with [b0].
  rewrite firstn_exact by apply length_le_split.
  now rewrite le_combine_split_8.
Qed.

Lemma read_pairs_frames l : forall bs,
  write_pairs l = Some bs ->
  frames (read_pairs (length l)) bs (read_back_pairs l).
Proof.
  induction l as [|[c w] l IH]; intros bs; simpl.
  - intros [= <-]. apply frames_ret.
  - destruct (encode c) as [cb|]; [|discriminate].
    unfold pack_1sQ. destruct (pack_Q w) as [x|] eqn:Ew; [|discriminate].
    destruct (write_pairs l) as [y|] eqn:Ey; [|discriminate].
    intros [= <-]. apply pack_Q_spec in Ew. destruct Ew as [-> Hw].
    specialize (IH y eq_refl).
    eapply (frames_ext _ ((hd (byte.of_Z 0) cb :: le_split 8 w) ++ y));
      [reflexivity|].
    eapply frames_bind.
    { apply frames_read. cbn [length]. now rewrite length_le_split. }
    rewrite unpack_from_1sQ_split by exact Hw.
    eapply (frames_ext _ ([] ++ y)); [reflexivity|].
    eapply frames_bind; [apply frames_ret|]. cbn beta iota.
    destruct (decode [hd (byte.of_Z 0) cb]) as [ch|].
    + eapply (frames_ext _ ([] ++ y)); [reflexivity|].
      eapply frames_bind; [apply frames_ret|].
      destruct (read_back_pairs l) as [r|].
      * eapply (frames_ext _ (y ++ [])); [apply app_nil_r|].
        eapply frames_bind; [exact IH|apply frames_ret].
      * eapply (frames_ext _ (y ++ [])); [apply app_nil_r|].
        apply frames_bind_raise. exact IH.
    + eapply (frames_ext _ ([] ++ y)); [reflexivity|].
      apply frames_bind_raise, frames_raise.
Qed.

Lemma unpack_from_H_split n :
  0 <= n < 2 ^ 16 -> unpack_from_H (le_split 2 n) = Some n.
Proof.
  intros H. unfold unpack_from_H. rewrite length_le_split. simpl Nat.leb.
  cbv iota. rewrite firstn_exact by apply length_le_split.
  rewrite le_combine_split. f_equal. apply Z.mod_small.
  change (Z.of_nat 2 * 8) with 16. exact H.
Qed.

Lemma read_value_frames v bs :
  write_value serial_type v = Some bs ->
  frames (read_value serial_type) bs (read_back_value serial_type v).
Proof.
  unfold write_value, read_value, read_back_value.
  destruct serial_type, v as [w|l]; try discriminate.
  - intros H. apply pack_Q_spec in H. destruct H as [-> Hw].
    eapply (frames_ext _ (le_split 8 w ++ [])); [apply app_nil_r|].
    eapply frames_bind; [apply frames_read, length_le_split|].
    rewrite unpack_from_Q_split by exact Hw.
    eapply (frames_ext _ ([] ++ [])); [reflexivity|].
    eapply frames_bind; apply frames_ret.
  - unfold pack_H. destruct (in_range 16 (len l)) eqn:E; [|discriminate].
    destruct (write_pairs l) as [y|] eqn:Ey; [|discriminate].
    intros Hbs. assert (bs = le_split 2 (len l) ++ y) by congruence.
    subst bs. clear Hbs. apply in_range_spec in E.
    eapply frames_bind; [apply frames_read, length_le_split|].
    rewrite unpack_from_H_split by exact E.
    eapply (frames_ext _ ([] ++ y)); [reflexivity|].
    eapply frames_bind; [apply frames_ret|].
    unfold len. rewrite Nat2Z.id.
    pose proof (read_pairs_frames l y Ey) as Hp.
    destruct (read_back_pairs l) as [r|]; simpl.
    + eapply (frames_ext _ (y ++ [])); [apply app_nil_r|].
      eapply frames_bind; [exact Hp|apply frames_ret].
    + eapply (frames_ext _ (y ++ [])); [apply app_nil_r|].
      apply frames_bind_raise. exact Hp.
Qed.

Lemma read_record_frames r :
  written serial_type r ->
  frames (read_record serial_type) (snd r)
         (option_map Some (read_back serial_type (fst r))).
Proof.
  destruct r as [[s v] bs]. unfold written, write_record. cbn [fst snd].
  destruct (write_string s) as [x|] eqn:Ex; [|discriminate].
  destruct (write_value serial_type v) as [y|] eqn:Ey; [|discriminate].
  intros [= <-]. unfold read_record, read_back. cbn [fst snd].
  pose proof (read_string_frames _ _ Ex) as Hs.
  pose proof (read_value_frames _ _ Ey) as Hv.
  destruct (read_back_string s) as [s'|]; simpl in Hs.
  - eapply frames_bind; [exact Hs|].
    destruct (read_back_value serial_type v) as [v'|]; simpl.
    + eapply (frames_ext _ (y ++ [])); [apply app_nil_r|].
      eapply frames_bind; [exact Hv|apply frames_ret].
    + eapply (frames_ext _ (y ++ [])); [apply app_nil_r|].
      apply frames_bind_raise. exact Hv.
  - apply frames_bind_raise. exact Hs.
Qed.

Lemma written_nonempty r : written serial_type r -> (0 < length (snd r))%nat.
Proof.
  destruct r as [[s v] bs]. unfold written, write_record. cbn [fst snd].
  destruct (write_string s) as [x|] eqn:Ex; [|discriminate].
  destruct (write_value serial_type v) as [y|]; [|discriminate].
  intros [= <-]. destruct (write_string_spec _ _ Ex) as (sb & _ & _ & ->).
  simpl. lia.
Qed.

End CodecFacts.

Section RecordSequences.

Context {encoding : Encoding}.
Variable serial_type : serializer_type.

Lemma data_of_cons r recs : data_of (r :: recs) = snd r ++ data_of recs.
Proof. reflexivity. Qed.

Lemma data_of_app a b : data_of (a ++ b) = data_of a ++ data_of b.
Proof. unfold data_of. now rewrite map_app, concat_app. Qed.

Lemma read_back_all_cons r recs :
  read_back_all serial_type (r :: recs)
  = match read_back serial_type (fst r) with
    | Some it => option_map (cons it) (read_back_all serial_type recs)
    | None => None
    end.
Proof. reflexivity. Qed.


(** The record at the position is read, and the reader goes on after it. *)
Lemma read_record_at r pre post :
  written serial_type r ->
  read_record serial_type (pre ++ snd r ++ post) (length pre)
  = option_map (fun it => (Some it, (length pre + length (snd r))%nat))
               (read_back serial_type (fst r)).
Proof.
  intros Hw. rewrite (read_record_frames serial_type r Hw pre post).
  now destruct (read_back serial_type (fst r)).
Qed.

(** At the end of the file [read_record] returns [None]. *)
Lemma read_record_eof content :
  read_record serial_type content (length content)
  = Some (None, length content).
Proof.
  unfold read_record, read_string, bind, read.
  rewrite skipn_all. simpl. now rewrite Nat.add_0_r.
Qed.

(** [read_records] on a file that holds the records [recs] at the
    position: it reads them, and goes on with what is left of its count. *)
Lemma read_records_app : forall recs m pre post,
  Forall (written serial_type) recs ->
  read_records serial_type (length recs + m) (pre ++ data_of recs ++ post)
               (length pre)
  = match read_back_all serial_type recs with
    | Some l =>
        option_map (fun lp => (l ++ fst lp, snd lp))
          (read_records serial_type m (pre ++ data_of recs ++ post)
             (length pre + length (data_of recs))%nat)
    | None => None
    end.
Proof.
  induction recs as [|r recs IH]; intros m pre post Hw.
  - simpl. rewrite Nat.add_0_r.
    destruct (read_records serial_type m (pre ++ post) (length pre))
      as [[l p]|]; reflexivity.
  - inversion Hw as [|? ? Hr Hrecs]; subst.
    cbn [length Nat.add read_records]. unfold bind at 1.
    rewrite data_of_cons, <- app_assoc, (read_record_at r pre _ Hr).
    rewrite read_back_all_cons.
    destruct (read_back serial_type (fst r)) as [it|]; [|reflexivity].
    cbn [option_map]. unfold bind at 1.
    specialize (IH m (pre ++ snd r) post Hrecs).
    rewrite <- app_assoc, length_app in IH. rewrite IH.
    rewrite length_app, Nat.add_assoc.
    destruct (read_back_all serial_type recs) as [l|]; [|reflexivity].
    cbn [option_map].
    destruct (read_records serial_type m _ _) as [[l' p]|]; reflexivity.
Qed.

Lemma read_records_eof n content :
  read_records serial_type n content (length content)
  = Some ([], length content).
Proof.
  destruct n; [reflexivity|]. cbn [read_records]. unfold bind.
  now rewrite read_record_eof.
Qed.


End RecordSequences.

(** *** Dictionaries and sorting *)

Lemma dict_set_fresh k v d :
  (forall k', In k' (map fst d) -> k' < k) -> dict_set k v d = d ++ [(k, v)].
Proof.
  induction d as [|[k' v'] d IH]; intros H; simpl; [reflexivity|].
  destruct (k' =? k) eqn:E.
  - apply Z.eqb_eq in E. specialize (H k' (or_introl eq_refl)). lia.
  - rewrite IH; [reflexivity|]. intros x Hx. apply H. now right.
Qed.

Lemma dict_get_sorted toc k o :
  StronglySorted Z.lt (map fst toc) -> In (k, o) toc ->
  dict_get k toc = Some o.
Proof.
  induction toc as [|[k' o'] toc IH]; intros Hs Hin; [contradiction|].
  simpl in Hs. inversion Hs as [|? ? Hs' Hall]; subst. simpl.
  destruct Hin as [[= -> ->]|Hin].
  - now rewrite Z.eqb_refl.
  - destruct (k' =? k) eqn:E; [|now apply IH].
    apply Z.eqb_eq in E. subst k'. rewrite Forall_forall in Hall.
    specialize (Hall k (in_map fst _ _ Hin)). lia.
Qed.

Lemma sorted_Z_sorted l : StronglySorted Z.lt l -> sorted_Z l = l.
Proof.
  induction l as [|a l IH]; intros Hs; [reflexivity|].
  inversion Hs as [|? ? Hs' Hall]; subst. simpl. rewrite IH by assumption.
  destruct l as [|b l]; [reflexivity|]. simpl.
  inversion Hall; subst.
  replace (a <=? b) with true by (symmetry; apply Z.leb_le; lia).
  reflexivity.
Qed.

Lemma StronglySorted_snoc l k :
  StronglySorted Z.lt l -> (forall x, In x l -> x < k) ->
  StronglySorted Z.lt (l ++ [k]).
Proof.
  induction l as [|a l IH]; intros Hs Hlt; simpl.
  - repeat constructor.
  - inversion Hs as [|? ? Hs' Hall]; subst. constructor.
    + apply IH; [assumption|]. intros x Hx. apply Hlt. now right.
    + apply Forall_app. split; [assumption|].
      constructor; [|constructor]. apply Hlt. now left.
Qed.

Lemma all_some_map_some {A B} (f : A -> option B) (g : A -> B) l :
  (forall x, In x l -> f x = Some (g x)) ->
  all_some (map f l) = Some (map g l).
Proof.
  induction l as [|a l IH]; intros H; simpl; [reflexivity|].
  rewrite (H a (or_introl eq_refl)), IH; [reflexivity|].
  intros x Hx. apply H. now right.
Qed.

(** *** The loop of [do_serialize] *)

Section WriteSide.

Context {encoding : Encoding}.
Variable serial_type : serializer_type.
Variable chunk_size : Z.

Lemma offset_after_app recs r k :
  (k <= length recs)%nat ->
  offset_after (recs ++ [r]) k = offset_after recs k.
Proof.
  intros H. unfold offset_after. rewrite firstn_app.
  replace (k - length recs)%nat with O by lia. simpl. now rewrite app_nil_r.
Qed.

Lemma offset_after_all recs :
  offset_after recs (length recs)
  = Z.of_nat (_fmt_size + length (data_of recs)).
Proof. unfold offset_after. now rewrite firstn_all. Qed.

Lemma serialize_item_inv header0 recs st it st' :
  length header0 = _fmt_size ->
  wstate_ok header0 recs st ->
  serialize_item serial_type chunk_size st it = Some st' ->
  exists bs, written serial_type (it, bs)
             /\ wstate_ok header0 (recs ++ [(it, bs)]) st'.
Proof.
  intros Hh (Hrec & Hfile & Hsorted & Htoc). unfold serialize_item.
  destruct (write_record serial_type (fst it) (snd it)) as [bs|] eqn:Hw;
    [|discriminate].
  destruct (chunk_size =? 0); [discriminate|].
  intros [= <-]. exists bs. split; [exact Hw|].
  assert (Hold : forall k o, In (k, o) (table_of_contents st) ->
            0 < k <= Z.of_nat (length (recs ++ [(it, bs)]))
            /\ o = offset_after (recs ++ [(it, bs)]) (Z.to_nat k)).
  { intros k o Hin. destruct (Htoc k o Hin) as [Hk ->].
    rewrite length_app. simpl. split; [lia|].
    symmetry. apply offset_after_app. lia. }
  unfold wstate_ok. cbn [records afile table_of_contents].
  split; [rewrite length_app; simpl; lia|].
  split; [rewrite Hfile, data_of_app, <- app_assoc; unfold data_of; simpl;
          now rewrite app_nil_r|].
  destruct (_ =? 0); [|split; assumption].
  rewrite dict_set_fresh.
  - split.
    + rewrite map_app. simpl. apply StronglySorted_snoc; [assumption|].
      intros x Hx. apply in_map_iff in Hx. destruct Hx as ([k o] & <- & Hin).
      destruct (Htoc k o Hin) as [Hk _]. simpl. lia.
    + intros k o Hin. apply in_app_or in Hin.
      destruct Hin as [Hin|[[= <- <-]|[]]]; [now apply Hold|].
      rewrite length_app. simpl. split; [lia|].
      rewrite Hrec.
      replace (Z.to_nat (Z.of_nat (length recs) + 1))
        with (length (recs ++ [(it, bs)]))
        by (rewrite length_app; simpl; lia).
      rewrite offset_after_all, Hfile, data_of_app. unfold len.
      rewrite !length_app, Hh.
      change (data_of [(it, bs)]) with (bs ++ []).
      rewrite app_nil_r. f_equal; lia.
  - intros x Hx. apply in_map_iff in Hx. destruct Hx as ([k o] & <- & Hin).
    destruct (Htoc k o Hin) as [Hk _]. simpl. lia.
Qed.

Lemma serialize_items_inv header0 : forall items recs st st',
  length header0 = _fmt_size ->
  wstate_ok header0 recs st ->
  serialize_items serial_type chunk_size st items = Some st' ->
  exists more, map fst more = items
               /\ Forall (written serial_type) more
               /\ wstate_ok header0 (recs ++ more) st'.
Proof.
  induction items as [|it items IH]; intros recs st st' Hh Hok; simpl.
  - intros [= <-]. exists []. rewrite app_nil_r.
    split; [reflexivity|]. split; [constructor|exact Hok].
  - destruct (serialize_item serial_type chunk_size st it) as [st1|] eqn:H1;
      [|discriminate].
    intros H2.
    destruct (serialize_item_inv _ _ _ _ _ Hh Hok H1) as (bs & Hw & Hok1).
    destruct (IH _ _ _ Hh Hok1 H2) as (more & Hm & Hws & Hok2).
    exists ((it, bs) :: more). rewrite <- app_assoc in Hok2.
    split; [simpl; now rewrite Hm|]. split; [now constructor|exact Hok2].
Qed.

Lemma write_toc_spec toc : forall suffix tb,
  (forall k o, In (k, o) suffix -> dict_get k toc = Some o) ->
  write_toc toc (map fst suffix) = Some tb ->
  tb = toc_bytes_of suffix
  /\ forall k o, In (k, o) suffix -> 0 <= k < 2 ^ 64 /\ 0 <= o < 2 ^ 64.
Proof.
  induction suffix as [|[k o] suffix IH]; intros tb Hget; simpl.
  - intros [= <-]. split; [reflexivity|]. intros ? ? [].
  - rewrite (Hget k o (or_introl eq_refl)).
    destruct (pack_QQ k o) as [x|] eqn:Hp; [|discriminate].
    destruct (write_toc toc (map fst suffix)) as [y|] eqn:Hy; [|discriminate].
    intros [= <-]. apply pack_QQ_spec in Hp. destruct Hp as (-> & Hk & Ho).
    destruct (IH y) as [-> Hr]; [|reflexivity|].
    { intros k' o' Hin. apply Hget. now right. }
    split; [reflexivity|].
    intros k' o' [[= <- <-]|Hin]; [auto|now apply Hr].
Qed.

(** A file that [do_serialize] produces: the header with the number of
    records and the offset of the table of contents, the records, and the
    table, whose entries are offsets of record boundaries. *)
Lemma do_serialize_spec items content :
  do_serialize serial_type chunk_size items = Some content ->
  exists recs toc,
    map fst recs = items
    /\ Forall (written serial_type) recs
    /\ toc_ok recs toc
    /\ (forall k o, In (k, o) toc -> 0 <= k < 2 ^ 64 /\ 0 <= o < 2 ^ 64)
    /\ 0 <= Z.of_nat (length recs) < 2 ^ 64
    /\ 0 <= offset_after recs (length recs) < 2 ^ 64
    /\ content
       = (le_split 8 (Z.of_nat (length recs))
          ++ le_split 8 (offset_after recs (length recs)))
         ++ data_of recs ++ toc_bytes_of toc.
Proof.
  unfold do_serialize.
  destruct (pack_QQ 0 0) as [header0|] eqn:H0; [|discriminate].
  apply pack_QQ_spec in H0. destruct H0 as (-> & _ & _).
  set (header0 := le_split 8 0 ++ le_split 8 0).
  assert (Hh : length header0 = _fmt_size) by reflexivity.
  destruct (serialize_items _ _ _ items) as [st|] eqn:Hs; [|discriminate].
  destruct (serialize_items_inv header0 items [] (mkwstate 0 [] header0) st
              Hh) as
    (recs & Hitems & Hw & Hrec & Hfile & Hsorted & Htoc); [|exact Hs|].
  { split; [reflexivity|]. split; [now rewrite app_nil_r|].
    split; [constructor|intros ? ? []]. }
  cbn [app] in Hrec, Hfile, Hsorted, Htoc.
  destruct (write_toc _ _) as [tb|] eqn:Ht; [|discriminate].
  destruct (len (afile st) >? 0); [|discriminate].
  destruct (pack_QQ _ _) as [header|] eqn:Hp; [|discriminate].
  intros [= <-]. apply pack_QQ_spec in Hp. destruct Hp as (-> & Hn & Hts).
  rewrite sorted_Z_sorted in Ht by assumption.
  destruct (write_toc_spec _ _ _ (fun k o Hin => dict_get_sorted _ k o Hsorted Hin) Ht)
    as [-> Hranges].
  assert (Hlen : len (afile st) = offset_after recs (length recs)).
  { rewrite offset_after_all, Hfile. unfold len. rewrite length_app, Hh.
    reflexivity. }
  exists recs, (table_of_contents st).
  rewrite Hrec, Hlen in *.
  split; [exact Hitems|]. split; [exact Hw|].
  split; [split; assumption|]. split; [exact Hranges|].
  split; [exact Hn|]. split; [exact Hts|].
  rewrite Hfile, <- !app_assoc.
  rewrite length_app, !length_le_split.
  rewrite (skipn_app_exact (8 + 8) header0) by exact Hh. reflexivity.
Qed.

End WriteSide.

(** *** Reading a produced file *)





Lemma read_header {A} (k : Z * Z -> Reader A) a b rest :
  0 <= a < 2 ^ 64 -> 0 <= b < 2 ^ 64 ->
  bind (read _fmt_size) (fun data => bind (lift (unpack_QQ data)) k)
       ((le_split 8 a ++ le_split 8 b) ++ rest) O
  = k (a, b) ((le_split 8 a ++ le_split 8 b) ++ rest) _fmt_size.
Proof.
  intros Ha Hb. unfold bind at 1.
  pose proof (read_at _fmt_size [] ((le_split 8 a ++ le_split 8 b) ++ rest))
    as Hr.
  cbn [app length Nat.add] in Hr. rewrite Hr.
  rewrite firstn_app_exact
    by (rewrite length_app, !length_le_split; reflexivity).
  rewrite length_app, !length_le_split. unfold bind.
  rewrite unpack_QQ_split by assumption. reflexivity.
Qed.


Section ReadSide.

Context {encoding : Encoding}.
Variable serial_type : serializer_type.

(** The file of the records [recs] with the table of contents [toc]. *)
Variable recs : list (item * list byte).
Variable toc : list (Z * Z).
Hypothesis recs_written : Forall (written serial_type) recs.
Hypothesis toc_fine : toc_ok recs toc.
Hypothesis toc_ranges :
  forall k o, In (k, o) toc -> 0 <= k < 2 ^ 64 /\ 0 <= o < 2 ^ 64.
Hypothesis count_range : 0 <= Z.of_nat (length recs) < 2 ^ 64.
Hypothesis start_range : 0 <= offset_after recs (length recs) < 2 ^ 64.

Lemma length_header_of :
  length (header_of recs) = _fmt_size.
Proof. unfold header_of. now rewrite length_app, !length_le_split. Qed.

Lemma deserialize_produced :
  deserialize serial_type (file_of recs toc) = read_back_all serial_type recs.
Proof.
  unfold deserialize, file_of, header_of.
  rewrite read_header by assumption.
  cbn beta iota. rewrite Nat2Z.id.
  pose proof (read_records_app serial_type recs O (header_of recs)
                (toc_bytes_of toc) recs_written) as H.
  rewrite Nat.add_0_r, length_header_of in H. unfold header_of in H.
  rewrite H.
  destruct (read_back_all serial_type recs) as [l|]; [|reflexivity].
  simpl. now rewrite app_nil_r.
Qed.


End ReadSide.




Section Intervals.

Context {encoding : Encoding}.
Variable serial_type : serializer_type.
Variable recs : list (item * list byte).
Variable toc : list (Z * Z).
Hypothesis recs_written : Forall (written serial_type) recs.

Lemma length_le_data_of (chunk : list (item * list byte)) :
  Forall (written serial_type) chunk ->
  (length chunk <= length (data_of chunk))%nat.
Proof.
  induction 1 as [|r chunk Hr _ IH]; [simpl; lia|].
  rewrite data_of_cons, length_app. simpl.
  pose proof (written_nonempty serial_type r Hr). lia.
Qed.






End Intervals.

(** ** The claims about the binary codec *)



(** *** When [do_serialize] succeeds *)

Section SerializeOk.

Context {encoding : Encoding}.
Variable serial_type : serializer_type.
Variable chunk_size : Z.

Lemma serialize_items_ok : forall items st,
  chunk_size <> 0 ->
  (forall it, In it items ->
     exists bs, write_record serial_type (fst it) (snd it) = Some bs) ->
  exists st', serialize_items serial_type chunk_size st items = Some st'.
Proof.
  induction items as [|it items IH]; intros st Hc Hw; simpl.
  - now exists st.
  - unfold serialize_item. destruct (Hw it (or_introl eq_refl)) as [bs ->].
    apply Z.eqb_neq in Hc. rewrite Hc.
    apply IH; [now apply Z.eqb_neq|]. intros it' Hin. apply Hw. now right.
Qed.

Lemma write_toc_ok toc : forall suffix,
  (forall k o, In (k, o) suffix ->
     dict_get k toc = Some o /\ 0 <= k < 2 ^ 64 /\ 0 <= o < 2 ^ 64) ->
  exists tb, write_toc toc (map fst suffix) = Some tb.
Proof.
  induction suffix as [|[k o] suffix IH]; intros H; simpl.
  - now exists [].
  - destruct (H k o (or_introl eq_refl)) as (-> & Hk & Ho).
    rewrite pack_QQ_ok by assumption.
    destruct IH as [tb ->]; [|eauto].
    intros k' o' Hin. apply H. now right.
Qed.

Lemma length_data_of_le (recs : list (item * list byte)) B :
  (forall r, In r recs -> (length (snd r) <= B)%nat) ->
  (length (data_of recs) <= B * length recs)%nat.
Proof.
  induction recs as [|r recs IH]; intros H; [simpl; lia|].
  rewrite data_of_cons, length_app. cbn [length].
  specialize (H r (or_introl eq_refl)) as Hr.
  assert (length (data_of recs) <= B * length recs)%nat
    by (apply IH; intros r' Hr'; apply H; now right).
  lia.
Qed.

Lemma offset_after_le (recs : list (item * list byte)) k :
  offset_after recs k <= offset_after recs (length recs).
Proof.
  rewrite offset_after_all. unfold offset_after.
  rewrite <- (firstn_skipn k recs) at 2. rewrite data_of_app, length_app.
  lia.
Qed.

Lemma do_serialize_ok items (B : nat) :
  chunk_size <> 0 ->
  (forall it, In it items ->
     exists bs, write_record serial_type (fst it) (snd it) = Some bs
                /\ (length bs <= B)%nat) ->
  Z.of_nat (_fmt_size + B * length items) < 2 ^ 64 ->
  exists content, do_serialize serial_type chunk_size items = Some content.
Proof.
  intros Hc Hw Hsize. unfold do_serialize.
  rewrite pack_QQ_ok by lia.
  set (header0 := le_split 8 0 ++ le_split 8 0).
  assert (Hh : length header0 = _fmt_size) by reflexivity.
  destruct (serialize_items_ok items (mkwstate 0 [] header0) Hc) as [st Hs].
  { intros it Hin. destruct (Hw it Hin) as (bs & Hbs & _). now exists bs. }
  rewrite Hs.
  destruct (serialize_items_inv serial_type chunk_size header0 items []
              (mkwstate 0 [] header0) st Hh) as
    (recs & Hitems & Hwr & Hrec & Hfile & Hsorted & Htoc); [|exact Hs|].
  { split; [reflexivity|]. split; [now rewrite app_nil_r|].
    split; [constructor|intros ? ? []]. }
  cbn [app] in Hrec, Hfile, Hsorted, Htoc.
  assert (Hlen : length recs = length items)
    by (rewrite <- Hitems; now rewrite length_map).
  assert (Hdata : (length (data_of recs) <= B * length recs)%nat).
  { apply length_data_of_le. intros r Hr.
    rewrite Forall_forall in Hwr. specialize (Hwr r Hr). unfold written in Hwr.
    destruct (Hw (fst r)) as (bs & Hbs & Hle).
    - rewrite <- Hitems. now apply in_map.
    - rewrite Hbs in Hwr. injection Hwr as <-. exact Hle. }
  assert (Hts : 0 <= offset_after recs (length recs) < 2 ^ 64).
  { rewrite offset_after_all. split; [lia|].
    eapply Z.le_lt_trans; [|exact Hsize]. rewrite <- Hlen. lia. }
  assert (Hn : 0 <= Z.of_nat (length recs) < 2 ^ 64).
  { split; [lia|]. eapply Z.le_lt_trans; [|apply Hts].
    rewrite offset_after_all.
    pose proof (length_le_data_of serial_type recs Hwr). lia. }
  rewrite sorted_Z_sorted by exact Hsorted.
  destruct (write_toc_ok (table_of_contents st) (table_of_contents st))
    as [tb ->].
  { intros k o Hin. split; [now apply dict_get_sorted|].
    destruct (Htoc k o Hin) as [Hk ->].
    pose proof (offset_after_le recs (Z.to_nat k)) as Hle.
    split; [lia|]. split; [unfold offset_after; lia|lia]. }
  assert (Hfl : len (afile st) = offset_after recs (length recs)).
  { rewrite offset_after_all, Hfile. unfold len.
    now rewrite length_app, Hh. }
  rewrite Hfl, Hrec.
  replace (offset_after recs (length recs) >? 0) with true.
  - rewrite pack_QQ_ok by assumption. eauto.
  - symmetry. rewrite Z.gtb_ltb. apply Z.ltb_lt. rewrite offset_after_all.
    unfold _fmt_size. lia.
Qed.

End SerializeOk.

(** *** The regular serializer on a trie *)

Lemma is_prefix_length p k : is_prefix p k = true -> (length p <= length k)%nat.
Proof.
  revert k. induction p as [|a p IH]; intros k H; simpl; [lia|].
  destruct k as [|b k]; [discriminate|]. simpl in H.
  apply andb_true_iff in H. destruct H as [_ H]. apply IH in H. simpl. lia.
Qed.

Lemma latin1_laws : EncodingLaws latin1.
Proof.
  split.
  - intros s bs [= <-]. simpl. rewrite map_map. f_equal.
    rewrite <- (map_id s) at 2. apply map_ext. apply ascii_of_byte_of_ascii.
  - intros p k bk Hp [= <-]. exists (map byte_of_ascii p).
    split; [reflexivity|]. rewrite !length_map. now apply is_prefix_length.
Qed.

Lemma read_back_reg {encoding : Encoding} {laws : EncodingLaws encoding}
    p w bs :
  write_record reg p (Weight w) = Some bs ->
  read_back reg (p, Weight w) = Some (p, Weight w).
Proof.
  unfold write_record, write_string, read_back, read_back_string. cbn [fst snd].
  destruct (encode p) as [sb|] eqn:He; [|discriminate]. intros _.
  now rewrite (decode_encode _ _ He).
Qed.

Lemma write_record_reg {encoding : Encoding} p w bp :
  encode p = Some bp -> (length bp <= 255)%nat -> 0 <= w < 2 ^ 64 ->
  exists bs, write_record reg p (Weight w) = Some bs
             /\ (length bs <= 264)%nat.
Proof.
  intros He Hl Hw. unfold write_record, write_string, write_value, pack_B.
  rewrite He. replace (in_range 8 (len bp)) with true
    by (symmetry; apply in_range_spec; unfold len; change (2 ^ 8) with 256;
        lia).
  rewrite pack_Q_ok by exact Hw. eexists. split; [reflexivity|].
  rewrite !length_app, length_le_split. simpl. lia.
Qed.

(** C3 (amended): when every key encodes to at most 255 bytes, every
    weight accumulated at a node (the total weight of the keys that share
    the prefix) fits in 64 bits, the chunk size of the table of contents is
    not zero and the file stays below 2^64 bytes, serializing the trie of
    the increments with [NodeTrieSerializer] and deserializing the file
    yields the entries of the trie, each as often as [iterate] does. *)
Theorem reg_roundtrip {encoding : Encoding} {laws : EncodingLaws encoding}
    (chunk_size : Z) (incs : list (str * Z)) :
  chunk_size <> 0 ->
  (forall k w, In (k, w) incs ->
     exists bk, encode k = Some bk /\ (length bk <= 255)%nat) ->
  (forall p w,
     In (p, w) (random_iterate (increment_all NodeTrie_init incs) []) ->
     0 <= w < 2 ^ 64) ->
  Z.of_nat (_fmt_size
            + 264 * length (random_iterate
                              (increment_all NodeTrie_init incs) []))
    < 2 ^ 64 ->
  exists content l,
    serialize_trie reg chunk_size (increment_all NodeTrie_init incs)
    = Some content
    /\ deserialize reg content = Some l
    /\ Permutation l (iterate (increment_all NodeTrie_init incs) reg).
Proof.
  intros Hc Hkeys Hweights Hsize.
  set (trie := increment_all NodeTrie_init incs) in *.
  assert (Hitems : forall it, In it (iterate trie reg) ->
            exists bs, write_record reg (fst it) (snd it) = Some bs
                       /\ (length bs <= 264)%nat).
  { intros it Hin. unfold iterate in Hin. apply in_map_iff in Hin.
    destruct Hin as ([p w] & <- & Hin). cbn [fst snd].
    pose proof (Hweights p w Hin) as Hw.
    apply corpus_entries in Hin. destruct Hin as (_ & Hex & _).
    apply existsb_exists in Hex. destruct Hex as ([k w'] & Hk & Hpre).
    destruct (Hkeys k w' Hk) as (bk & Hbk & Hlen).
    destruct (encode_prefix p k bk Hpre Hbk) as (bp & Hbp & Hle).
    apply (write_record_reg p w bp Hbp); [lia|exact Hw]. }
  destruct (do_serialize_ok reg chunk_size (iterate trie reg) 264 Hc Hitems)
    as [content Hser].
  { unfold iterate. now rewrite length_map. }
  exists content, (iterate trie reg). split; [exact Hser|].
  split; [|apply Permutation_refl].
  destruct (do_serialize_spec _ _ _ _ Hser) as
    (recs & toc & Hmap & Hw & Htoc & Hranges & Hn & Hts & ->).
  fold (header_of recs). fold (file_of recs toc).
  rewrite (deserialize_produced reg recs toc Hw Hn Hts).
  unfold read_back_all. rewrite <- Hmap.
  apply all_some_map_some. intros [[p v] bs] Hin.
  assert (Hit : In (p, v) (iterate trie reg))
    by (rewrite <- Hmap; now apply (in_map fst) in Hin).
  unfold iterate in Hit. apply in_map_iff in Hit.
  destruct Hit as ([p' w] & [= -> <-] & _).
  rewrite Forall_forall in Hw. specialize (Hw _ Hin).
  apply (read_back_reg p w bs Hw).
Qed.

Lemma reg_roundtrip_witness :
  2 <> 0
  /\ (forall k w, In (k, w) small_corpus ->
        exists bk, @encode latin1 k = Some bk /\ (length bk <= 255)%nat)
  /\ (forall p w,
        In (p, w) (random_iterate (increment_all NodeTrie_init small_corpus)
                     []) ->
        0 <= w < 2 ^ 64)
  /\ Z.of_nat (_fmt_size
               + 264 * length (random_iterate
                                 (increment_all NodeTrie_init small_corpus)
                                 []))
     < 2 ^ 64
  /\ exists content l,
       @serialize_trie latin1 reg 2
         (increment_all NodeTrie_init small_corpus) = Some content
       /\ @deserialize latin1 reg content = Some l
       /\ Permutation l
            (iterate (increment_all NodeTrie_init small_corpus) reg).
Proof.
  assert (H1 : 2 <> 0) by discriminate.
  assert (H2 : forall k w, In (k, w) small_corpus ->
            exists bk, @encode latin1 k = Some bk /\ (length bk <= 255)%nat).
  { intros k w H. eexists. split; [reflexivity|].
    destruct H as [[= <- <-]|[[= <- <-]|[[= <- <-]|[]]]]; cbn; lia. }
  assert (H3 : forall p w,
            In (p, w) (random_iterate
                         (increment_all NodeTrie_init small_corpus) []) ->
            0 <= w < 2 ^ 64).
  { intros p w H. vm_compute in H.
    destruct H as [[= <- <-]|[[= <- <-]|[[= <- <-]|[[= <- <-]|[]]]]];
      split; (discriminate || reflexivity). }
  assert (H4 : Z.of_nat (_fmt_size
                 + 264 * length (random_iterate
                                   (increment_all NodeTrie_init small_corpus)
                                   []))
               < 2 ^ 64) by reflexivity.
  repeat (split; [assumption|]).
  exact (@reg_roundtrip latin1 latin1_laws 2 small_corpus H1 H2 H3 H4).
Defined.

(** C3, as stated, fails: both keys encode to a byte or two and both
    weights fit in 64 bits, but the node of "a" has the weight 2^64, which
    [struct.pack] refuses: no file is produced. *)
Lemma reg_roundtrip_counterexample :
  (forall k w, In (k, w) overflow_corpus ->
     (exists bk, @encode latin1 k = Some bk /\ (length bk <= 255)%nat)
     /\ 0 <= w < 2 ^ 64)
  /\ weight_at (increment_all NodeTrie_init overflow_corpus) (L "a") = 2 ^ 64
  /\ @serialize_trie latin1 reg 2
       (increment_all NodeTrie_init overflow_corpus) = None.
Proof.
  split; [|split; reflexivity].
  intros k w H.
  destruct H as [[= <- <-]|[[= <- <-]|[]]];
    (split; [eexists; split; [reflexivity|cbn; lia]
            |split; (discriminate || reflexivity)]).
Qed.


(** The table of contents of a file of five records with an entry every
    two records has the two checkpoints 2 and 4. *)
Example toc_of_five_records :
  match @do_serialize latin1 reg 2
          [(L "a", Weight 1); (L "b", Weight 2); (L "c", Weight 3);
           (L "d", Weight 4); (L "e", Weight 5)] with
  | Some content => option_map (fun r => map fst (fst (fst r)))
                               (read_toc content O)
  | None => None
  end = Some [2; 4].
Proof. vm_compute. reflexivity. Qed.

(** ** deserialize on files that end early *)

Section Truncation.

Context {encoding : Encoding}.
Variable serial_type : serializer_type.

Lemma firstn_app_ge {A} (x y : list A) j :
  (length x <= j)%nat -> firstn j (x ++ y) = x ++ firstn (j - length x) y.
Proof. intros H. rewrite firstn_app. now rewrite firstn_all2 by exact H. Qed.

Lemma firstn_firstn_short {A} (x : list A) n j :
  (j <= n)%nat -> firstn n (firstn j x) = firstn j x.
Proof. intros H. apply firstn_all2. rewrite length_firstn. lia. Qed.

Lemma read_pairs_truncated : forall l y,
  write_pairs l = Some y ->
  forall j pre, (j < length y)%nat ->
    read_pairs (length l) (pre ++ firstn j y) (length pre) = None.
Proof.
  induction l as [|[c w] l IH]; intros y; simpl.
  - intros [= <-] j pre Hj. simpl in Hj. lia.
  - destruct (encode c) as [cb|]; [|discriminate].
    unfold pack_1sQ. destruct (pack_Q w) as [x|] eqn:Ew; [|discriminate].
    destruct (write_pairs l) as [y'|] eqn:Ey; [|discriminate].
    intros Hy j pre Hj. apply pack_Q_spec in Ew. destruct Ew as [-> Hw].
    assert (y = (hd (byte.of_Z 0) cb :: le_split 8 w) ++ y') by congruence.
    subst y. clear Hy. set (entry := hd (byte.of_Z 0) cb :: le_split 8 w) in *.
    assert (He : length entry = 9%nat)
      by (unfold entry; cbn [length]; now rewrite length_le_split).
    unfold bind at 1. rewrite read_at.
    destruct (Nat.ltb j 9) eqn:Hj9.
    + apply Nat.ltb_lt in Hj9.
      rewrite firstn_firstn_short by lia. unfold bind at 1, unpack_from_1sQ.
      replace (Nat.leb 9 (length (firstn j (entry ++ y')))) with false;
        [reflexivity|].
      symmetry. apply Nat.leb_gt. rewrite length_firstn. lia.
    + apply Nat.ltb_ge in Hj9.
      rewrite firstn_app_ge by lia. rewrite He.
      rewrite firstn_app_exact by exact He. rewrite He.
      unfold bind at 1. unfold entry at 1.
      rewrite unpack_from_1sQ_split by exact Hw. cbn [lift ret].
      unfold bind at 1.
      destruct (decode [hd (byte.of_Z 0) cb]) as [ch|]; [|reflexivity].
      cbn [lift ret]. unfold bind at 1.
      specialize (IH y' eq_refl (j - 9)%nat (pre ++ entry)).
      rewrite <- app_assoc, length_app, He in IH. rewrite IH; [reflexivity|].
      rewrite length_app, He in Hj. lia.
Qed.

Lemma read_value_truncated v vb j pre :
  write_value serial_type v = Some vb -> (j < length vb)%nat ->
  read_value serial_type (pre ++ firstn j vb) (length pre) = None.
Proof.
  unfold write_value, read_value.
  destruct serial_type, v as [w|l]; try discriminate.
  - intros H Hj. apply pack_Q_spec in H. destruct H as [-> Hw].
    rewrite length_le_split in Hj.
    unfold bind at 1. rewrite read_at, firstn_firstn_short by lia.
    unfold bind at 1, unpack_from_Q.
    replace (Nat.leb 8 (length (firstn j (le_split 8 w)))) with false;
      [reflexivity|].
    symmetry. apply Nat.leb_gt. rewrite length_firstn. lia.
  - unfold pack_H. destruct (in_range 16 (len l)) eqn:E; [|discriminate].
    destruct (write_pairs l) as [y|] eqn:Ey; [|discriminate].
    intros Hvb Hj. assert (vb = le_split 2 (len l) ++ y) by congruence.
    subst vb. clear Hvb. apply in_range_spec in E.
    rewrite length_app, length_le_split in Hj.
    unfold bind at 1. rewrite read_at.
    destruct (Nat.ltb j 2) eqn:Hj2.
    + apply Nat.ltb_lt in Hj2.
      rewrite firstn_firstn_short by lia. unfold bind at 1, unpack_from_H.
      replace (Nat.leb 2 (length (firstn j (le_split 2 (len l) ++ y))))
        with false; [reflexivity|].
      symmetry. apply Nat.leb_gt. rewrite length_firstn. lia.
    + apply Nat.ltb_ge in Hj2.
      rewrite firstn_app_ge by (rewrite length_le_split; lia).
      rewrite length_le_split.
      rewrite firstn_app_exact by apply length_le_split.
      rewrite length_le_split.
      unfold bind at 1. rewrite unpack_from_H_split by exact E.
      cbn [lift ret]. unfold bind at 1. unfold len. rewrite Nat2Z.id.
      pose proof (read_pairs_truncated l y Ey (j - 2)%nat
                    (pre ++ le_split 2 (Z.of_nat (length l)))) as Hp.
      rewrite <- app_assoc, length_app, length_le_split in Hp.
      rewrite Hp; [reflexivity|lia].
Qed.

Lemma write_value_nonempty v vb :
  write_value serial_type v = Some vb -> (0 < length vb)%nat.
Proof.
  unfold write_value. destruct serial_type, v as [w|l]; try discriminate.
  - intros H. apply pack_Q_spec in H. destruct H as [-> _].
    rewrite length_le_split. lia.
  - unfold pack_H. destruct (in_range 16 (len l)); [|discriminate].
    destruct (write_pairs l) as [y|]; [|discriminate].
    intros H. assert (vb = le_split 2 (len l) ++ y) by congruence. subst vb.
    rewrite length_app, length_le_split. lia.
Qed.

(** A record that was cut short makes [read_record] raise. *)
Lemma read_record_truncated r k pre :
  written serial_type r -> (0 < k < length (snd r))%nat ->
  read_record serial_type (pre ++ firstn k (snd r)) (length pre) = None.
Proof.
  destruct r as [[s v] bs]. unfold written, write_record. cbn [fst snd].
  destruct (write_string s) as [x|] eqn:Ex; [|discriminate].
  destruct (write_value serial_type v) as [vb|] eqn:Ev; [|discriminate].
  intros Hbs Hk. assert (bs = x ++ vb) by congruence. subst bs. clear Hbs.
  destruct (write_string_spec _ _ Ex) as (sb & He & Hl & ->).
  pose proof (write_value_nonempty _ _ Ev) as Hvb.
  destruct k as [|k']; [lia|].
  rewrite length_app in Hk. cbn [length] in Hk.
  change ((byte.of_Z (len sb) :: sb) ++ vb)
    with (byte.of_Z (len sb) :: (sb ++ vb)).
  cbn [firstn].
  set (sbp := firstn k' sb). set (j := (k' - length sb)%nat).
  assert (Hsplit : firstn k' (sb ++ vb) = sbp ++ firstn j vb)
    by apply firstn_app.
  assert (Hread : firstn (length sb) (sbp ++ firstn j vb) = sbp).
  { unfold sbp, j. destruct (Nat.leb k' (length sb)) eqn:Hle.
    - apply Nat.leb_le in Hle.
      replace (k' - length sb)%nat with O by lia. cbn [firstn].
      rewrite app_nil_r. apply firstn_all2. rewrite length_firstn. lia.
    - apply Nat.leb_gt in Hle. rewrite (@firstn_all2 _ k' sb) by lia.
      now apply firstn_app_exact. }
  assert (Hj : (j < length vb)%nat) by (unfold j; lia).
  rewrite Hsplit.
  unfold read_record, bind at 1, read_string, bind at 1.
  change (pre ++ byte.of_Z (len sb) :: sbp ++ firstn j vb)
    with (pre ++ [byte.of_Z (len sb)] ++ (sbp ++ firstn j vb)).
  rewrite read_at. cbn [firstn app is_empty length].
  unfold bind at 1. cbn [unpack_B lift ret].
  rewrite byte_unsigned_of_Z by exact Hl.
  unfold bind at 1, len. rewrite Nat2Z.id.
  pose proof (read_at (length sb) (pre ++ [byte.of_Z (Z.of_nat (length sb))])
                (sbp ++ firstn j vb)) as Hr.
  rewrite <- app_assoc, length_app in Hr. cbn [length app] in Hr.
  cbn [app]. rewrite Hr, Hread. unfold bind at 1.
  destruct (decode sbp) as [s'|]; [|reflexivity].
  cbn [lift ret]. unfold bind at 1.
  pose proof (read_value_truncated v vb j
                (pre ++ byte.of_Z (Z.of_nat (length sb)) :: sbp) Ev Hj) as Hv.
  rewrite <- app_assoc, length_app in Hv. cbn [length app] in Hv.
  replace (length pre + 1 + length sbp)%nat
    with (length pre + S (length sbp))%nat by lia.
  rewrite Hv. reflexivity.
Qed.

(** C5 (amended): [deserialize] reads the header and then the records in
    file order; it yields as many records as the header announces when the
    file holds that many; it stops without an exception, with the records
    read so far, when the file ends at a record boundary before that; and
    it raises when the file ends inside a record (or when the text of a
    record cannot be decoded). *)
Theorem deserialize_spec (recs : list (item * list byte)) (n ts : Z)
    (rest : list byte) :
  Forall (written serial_type) recs ->
  0 <= n < 2 ^ 64 -> 0 <= ts < 2 ^ 64 ->
  n <= Z.of_nat (length recs) \/ rest = [] \/ truncated serial_type rest ->
  deserialize serial_type
    ((le_split 8 n ++ le_split 8 ts) ++ data_of recs ++ rest)
  = if n <=? Z.of_nat (length recs)
    then read_back_all serial_type (firstn (Z.to_nat n) recs)
    else if is_empty rest then read_back_all serial_type recs
    else None.
Proof.
  intros Hw Hn Hts Hcase. unfold deserialize.
  rewrite read_header by assumption. cbn beta iota.
  set (header := le_split 8 n ++ le_split 8 ts).
  assert (Hh : length header = _fmt_size)
    by (unfold header; now rewrite length_app, !length_le_split).
  rewrite <- Hh.
  destruct (n <=? Z.of_nat (length recs)) eqn:Hle.
  - apply Z.leb_le in Hle.
    set (k := Z.to_nat n).
    assert (Hfirst : Forall (written serial_type) (firstn k recs)).
    { rewrite Forall_forall in *. intros r Hr. apply Hw.
      rewrite <- (firstn_skipn k recs). apply in_or_app. now left. }
    pose proof (read_records_app serial_type (firstn k recs) O header
                  (data_of (skipn k recs) ++ rest) Hfirst) as H.
    rewrite length_firstn, Nat.add_0_r in H.
    replace (Nat.min k (length recs)) with k in H by (unfold k; lia).
    rewrite <- (firstn_skipn k recs) at 1. rewrite data_of_app, <- app_assoc.
    rewrite H.
    destruct (read_back_all serial_type (firstn k recs)); [|reflexivity].
    simpl. now rewrite app_nil_r.
  - apply Z.leb_gt in Hle.
    destruct Hcase as [Hc|[->|Htr]]; [lia| |].
    + cbn [is_empty].
      pose proof (read_records_app serial_type recs
                    (Z.to_nat n - length recs) header [] Hw) as H.
      replace (length recs + (Z.to_nat n - length recs))%nat
        with (Z.to_nat n) in H by lia.
      rewrite H.
      destruct (read_back_all serial_type recs) as [l|]; [|reflexivity].
      rewrite app_nil_r, <- length_app, read_records_eof. simpl.
      now rewrite app_nil_r.
    + destruct Htr as (r & k & Hr & Hk & ->).
      replace (is_empty (firstn k (snd r))) with false
        by (destruct k; [lia|]; destruct (snd r); [simpl in Hk; lia|reflexivity]).
      pose proof (read_records_app serial_type recs
                    (Z.to_nat n - length recs) header (firstn k (snd r)) Hw)
        as H.
      replace (length recs + (Z.to_nat n - length recs))%nat
        with (Z.to_nat n) in H by lia.
      rewrite H.
      destruct (read_back_all serial_type recs) as [l|]; [|reflexivity].
      destruct (Z.to_nat n - length recs)%nat as [|m] eqn:Hm; [lia|].
      cbn [read_records]. unfold bind at 1.
      rewrite app_assoc, <- length_app.
      now rewrite (read_record_truncated r k _ Hr Hk).
Qed.

End Truncation.

Lemma deserialize_spec_witness :
  Forall (@written latin1 reg) [one_record]
  /\ 0 <= 2 < 2 ^ 64
  /\ 0 <= 26 < 2 ^ 64
  /\ (2 <= Z.of_nat (length [one_record]) \/ @nil byte = []
      \/ @truncated latin1 reg [])
  /\ @deserialize latin1 reg
       ((le_split 8 2 ++ le_split 8 26) ++ data_of [one_record] ++ [])
     = if 2 <=? Z.of_nat (length [one_record])
       then @read_back_all latin1 reg (firstn (Z.to_nat 2) [one_record])
       else if is_empty (@nil byte) then @read_back_all latin1 reg [one_record]
       else None.
Proof.
  assert (H1 : Forall (@written latin1 reg) [one_record])
    by (constructor; [reflexivity|constructor]).
  assert (H2 : 0 <= 2 < 2 ^ 64) by (split; [discriminate|reflexivity]).
  assert (H3 : 0 <= 26 < 2 ^ 64) by (split; [discriminate|reflexivity]).
  assert (H4 : 2 <= Z.of_nat (length [one_record]) \/ @nil byte = []
               \/ @truncated latin1 reg []) by (right; left; reflexivity).
  repeat (split; [assumption|]).
  exact (@deserialize_spec latin1 reg [one_record] 2 26 [] H1 H2 H3 H4).
Defined.

(** The file of the witness: the header announces two records, the file
    holds one, and [deserialize] yields that one without an exception. *)
Example deserialize_stops_silently :
  @deserialize latin1 reg
    ((le_split 8 2 ++ le_split 8 26) ++ data_of [one_record] ++ [])
  = Some [(L "a", Weight 3)].
Proof. vm_compute. reflexivity. Qed.

(** C5, as stated, fails: on a file that is a header announcing one record
    and nothing more, [deserialize] yields no record and raises nothing. *)
Lemma deserialize_counterexample :
  pack_QQ 1 16 = Some header_only_file
  /\ @deserialize latin1 reg header_only_file = Some [].
Proof. split; vm_compute; reflexivity. Qed.

(** ** DiskBackedTrie *)

Lemma index_of_str_fresh K (ks suf : list str) :
  ~ In K ks -> index_of str_eqb K (ks ++ K :: suf) = Some (length ks).
Proof.
  induction ks as [|a ks IH]; intros Hn; simpl.
  - now rewrite str_eqb_refl.
  - destruct (str_eqb a K) eqn:E.
    + apply str_eqb_eq in E. subst. exfalso. apply Hn. now left.
    + rewrite IH; [reflexivity|]. intro. apply Hn. now right.
Qed.

Lemma index_of_str_nth (l : list str) i K :
  NoDup l -> nth_error l i = Some K -> index_of str_eqb K l = Some i.
Proof.
  intros Hnd Hi. destruct (nth_error_split l i Hi) as (l1 & l2 & -> & <-).
  apply index_of_str_fresh. apply NoDup_remove_2 in Hnd.
  intro. apply Hnd. apply in_or_app. now left.
Qed.










Section DiskFacts.

Variable c : ModelDefaults.
Hypothesis Hmem : DiskBackedTrie.in_memory c = true.


End DiskFacts.

Section DiskRun.

Variable c : ModelDefaults.
Hypothesis Hmem : DiskBackedTrie.in_memory c = true.






End DiskRun.

(** *** The partitions against a single trie *)








Section Partitions.

Variable n : nat.
Variable incs : list (str * Z).












End Partitions.






(** * Further properties *)

(** ** NodeTrie: the two iterations *)

















(** X4.  One increment adds the weight to the node of every non-empty
    prefix of the key, once, creates the nodes that are missing, and
    leaves every other node and its weight as they were. *)
Theorem increment_paths (t : NodeTrie) (k : str) (w : Z) (p : str) :
  p <> [] ->
  weight_at (increment t k w) p
  = weight_at t p + (if is_prefix p k then w else 0)
  /\ has_node (increment t k w) p = has_node t p || is_prefix p k.
Proof.
  intros Hp. split.
  - rewrite increment_weight_at. destruct p; [congruence|]. simpl. lia.
  - apply increment_has_node.
Qed.

Lemma increment_paths_witness :
  L "ab" <> []
  /\ weight_at (increment small_trie (L "abc") 7) (L "ab")
     = weight_at small_trie (L "ab") + (if is_prefix (L "ab") (L "abc") then 7 else 0)
  /\ has_node (increment small_trie (L "abc") 7) (L "ab")
     = has_node small_trie (L "ab") || is_prefix (L "ab") (L "abc").
Proof.
  assert (H : L "ab" <> []) by discriminate.
  split; [exact H|].
  exact (increment_paths small_trie (L "abc") 7 (L "ab") H).
Defined.

(** ** The binary serializers *)

(** X5.  A text can be written exactly when its encoding has at most 255
    bytes; what [write_string] writes is one byte more than the encoding,
    and [read_string] reads the text back from it, wherever the bytes lie
    in a file. *)
Theorem write_string_roundtrip {encoding : Encoding}
    {laws : EncodingLaws encoding} (s : str) :
  match write_string s with
  | Some bs =>
      (exists sb, encode s = Some sb /\ (length sb <= 255)%nat
                  /\ length bs = S (length sb))
      /\ frames read_string bs (Some (Some s))
  | None => forall sb, encode s = Some sb -> (255 < length sb)%nat
  end.
Proof.
  destruct (write_string s) as [bs|] eqn:Hw.
  - pose proof (read_string_frames s bs Hw) as Hf.
    destruct (write_string_spec s bs Hw) as (sb & He & Hl & ->).
    split.
    + exists sb. split; [exact He|]. split; [|reflexivity].
      unfold len in Hl. change (2 ^ 8) with 256 in Hl. lia.
    + unfold read_back_string in Hf. rewrite He in Hf.
      now rewrite (decode_encode _ _ He) in Hf.
  - intros sb He. unfold write_string in Hw. rewrite He in Hw.
    unfold pack_B in Hw. destruct (in_range 8 (len sb)) eqn:E; [discriminate|].
    destruct (Nat.le_gt_cases (length sb) 255) as [Hle|Hgt]; [|exact Hgt].
    assert (in_range 8 (len sb) = true); [|congruence].
    apply in_range_spec. unfold len. change (2 ^ 8) with 256. lia.
Qed.

Lemma write_string_roundtrip_witness :
  match @write_string latin1 (L "abc") with
  | Some bs =>
      (exists sb, @encode latin1 (L "abc") = Some sb /\ (length sb <= 255)%nat
                  /\ length bs = S (length sb))
      /\ frames (@read_string latin1) bs (Some (Some (L "abc")))
  | None => forall sb, @encode latin1 (L "abc") = Some sb
                       -> (255 < length sb)%nat
  end.
Proof. exact (@write_string_roundtrip latin1 latin1_laws (L "abc")). Defined.

Lemma write_pairs_latin1 (l : list (str * Z)) :
  (forall c w, In (c, w) l -> 0 <= w < 2 ^ 64) ->
  exists bs, @write_pairs latin1 l = Some bs
             /\ length bs = (9 * length l)%nat
             /\ @read_back_pairs latin1 l = Some (map first_char l).
Proof.
  induction l as [|[c w] l IH]; intros Hw.
  - exists []. repeat split.
  - destruct IH as (bs & Hbs & Hlen & Hrb).
    { intros c' w' Hin. apply (Hw c' w'). now right. }
    cbn [write_pairs read_back_pairs encode latin1 map].
    unfold pack_1sQ. rewrite pack_Q_ok by (apply (Hw c w); now left).
    rewrite Hbs, Hrb. eexists. split; [reflexivity|]. split.
    + cbn [app length]. rewrite length_app, length_le_split, Hlen.
      cbn [length]. lia.
    + cbn [decode latin1 map]. unfold first_char at 2. cbn [fst snd].
      do 3 f_equal. destruct c as [|a c]; [reflexivity|].
      cbn [map hd]. now rewrite ascii_of_byte_of_ascii.
Qed.

(** X6.  The fuzzy value under Latin-1: a list of fewer than 65536 pairs
    whose weights fit in 64 bits is written in [2 + 9 n] bytes, and
    [read_value] reads back, for every pair, the first character of its
    text (a null character when the text is empty) and its weight; a list
    whose texts are single characters is read back as it was. *)
Theorem fuzzy_value_readback (l : list (str * Z)) :
  len l < 2 ^ 16 ->
  (forall c w, In (c, w) l -> 0 <= w < 2 ^ 64) ->
  exists bs,
    @write_value latin1 fuzzy (Dist l) = Some bs
    /\ length bs = (2 + 9 * length l)%nat
    /\ frames (@read_value latin1 fuzzy) bs (Some (Dist (map first_char l)))
    /\ ((forall c w, In (c, w) l -> length c = 1%nat) ->
        map first_char l = l).
Proof.
  intros Hn Hw. destruct (write_pairs_latin1 l Hw) as (bs & Hbs & Hlen & Hrb).
  assert (Hv : @write_value latin1 fuzzy (Dist l)
               = Some (le_split 2 (len l) ++ bs)).
  { cbn [write_value]. unfold pack_H.
    replace (in_range 16 (len l)) with true
      by (symmetry; apply in_range_spec; unfold len in *; lia).
    now rewrite Hbs. }
  exists (le_split 2 (len l) ++ bs). split; [exact Hv|]. split; [|split].
  - rewrite length_app, length_le_split, Hlen. reflexivity.
  - pose proof (@read_value_frames latin1 fuzzy (Dist l) _ Hv) as Hf.
    cbn [read_back_value] in Hf. now rewrite Hrb in Hf.
  - intros H1. rewrite <- (map_id l) at 2. apply map_ext_in.
    intros [c w] Hin. specialize (H1 c w Hin). unfold first_char. cbn [fst snd].
    destruct c as [|a [|b c]]; try discriminate. reflexivity.
Qed.

Lemma fuzzy_value_readback_witness :
  exists bs,
    @write_value latin1 fuzzy (Dist [(L "a", 3); (L "b", 4)]) = Some bs
    /\ length bs = (2 + 9 * 2)%nat
    /\ frames (@read_value latin1 fuzzy) bs
         (Some (Dist (map first_char [(L "a", 3); (L "b", 4)])))
    /\ ((forall c w, In (c, w) [(L "a", 3); (L "b", 4)] -> length c = 1%nat) ->
        map first_char [(L "a", 3); (L "b", 4)] = [(L "a", 3); (L "b", 4)]).
Proof.
  apply (fuzzy_value_readback [(L "a", 3); (L "b", 4)]).
  - reflexivity.
  - intros c w [[= <- <-]|[[= <- <-]|[]]]; split; (discriminate || reflexivity).
Defined.

Lemma utf8_lead_byte_alone (c : ascii) :
  (128 <= nat_of_ascii c)%nat ->
  @decode utf8 [hd (byte.of_Z 0) (utf8_encode_char c)] = None.
Proof.
  destruct c as [b0 b1 b2 b3 b4 b5 b6 [|]].
  - intros _. destruct b0, b1, b2, b3, b4, b5, b6; vm_compute; reflexivity.
  - intros H. exfalso. revert H.
    destruct b0, b1, b2, b3, b4, b5, b6; vm_compute; intros H;
      repeat (apply le_S_n in H); inversion H.
Qed.

(** X7.  The fuzzy value under UTF-8, the default encoding: the format
    keeps one byte of a character, so a character from code point 128 on,
    which UTF-8 encodes in two bytes, is written without an error and
    cannot be read: [read_value] raises on the bytes [write_value] wrote. *)
Theorem fuzzy_value_utf8_not_ascii (c : ascii) (w : Z) :
  (128 <= nat_of_ascii c)%nat ->
  0 <= w < 2 ^ 64 ->
  exists bs,
    @write_value utf8 fuzzy (Dist [([c], w)]) = Some bs
    /\ frames (@read_value utf8 fuzzy) bs None.
Proof.
  intros Hc Hw.
  assert (Hv : exists bs, @write_value utf8 fuzzy (Dist [([c], w)]) = Some bs).
  { cbn [write_value write_pairs encode utf8 flat_map]. unfold pack_1sQ.
    rewrite pack_Q_ok by exact Hw. unfold pack_H.
    replace (in_range 16 (len [([c], w)])) with true by reflexivity.
    cbv beta iota. eexists. reflexivity. }
  destruct Hv as [bs Hv]. exists bs. split; [exact Hv|].
  pose proof (@read_value_frames utf8 fuzzy _ _ Hv) as Hf.
  cbn [read_back_value read_back_pairs encode utf8 flat_map] in Hf.
  rewrite app_nil_r in Hf. now rewrite (utf8_lead_byte_alone c Hc) in Hf.
Qed.

Lemma fuzzy_value_utf8_not_ascii_witness :
  exists bs,
    @write_value utf8 fuzzy (Dist [([ascii_of_nat 233], 1)]) = Some bs
    /\ frames (@read_value utf8 fuzzy) bs None.
Proof.
  apply (fuzzy_value_utf8_not_ascii (ascii_of_nat 233) 1).
  - vm_compute. repeat constructor.
  - split; [discriminate|reflexivity].
Defined.

